(** * IMAP MCP server: mailbox session orchestration

    A shallow embedding of [src/tools/email-tools.ts] (the tool handlers)
    and of the [ImapService] class (connection map, folder parsing, search
    criteria translation, flag / delete / move operations), together with
    the properties the specification states about them.

    Conventions.
    - A JavaScript optional field ([x?: T], [z.T().optional()]) is an
      [option]; [None] is [undefined].
    - [uid: number | number[]] is the two-constructor type [UidArg].
    - A rejected promise / thrown [Error] is the left injection of a sum;
      the message of the [Error] is kept.
    - [Map<string, Imap>] is a [gmap string Conn].
    - A JavaScript string is the Rocq string of its UTF-8 bytes (what a
      Rocq string literal is); where the code counts characters, the model
      counts UTF-16 code units as JavaScript does.
    - The [node-imap] connection object is an external collaborator: the
      service is written against the interface [NodeImap]; every call that
      crosses that interface is recorded, with the library's answer, in a
      ghost trace. *)

From Stdlib Require Import ZArith String Ascii.
From stdpp Require Import base option list strings pretty gmap sorting.

Open Scope string_scope.
Open Scope list_scope.

Set Warnings "-register-all".

(** ** JavaScript values that the code inspects *)

(** A [Date] object.  [new Date(s)] on an unparsable string is the
    "Invalid Date" object; like every object it is truthy. *)
Inductive Date : Type :=
| DateMs (ms : Z)
| InvalidDate.

(** Truthiness of a string value: only the empty string is falsy. *)
Definition truthy (s : string) : bool :=
  match s with
  | EmptyString => false
  | String _ _ => true
  end.

(** [String.prototype.startsWith] (code-unit-wise, case-sensitive). *)
Definition startsWith (s p : string) : bool := String.prefix p s.

(** [Array.prototype.join]. *)
Fixpoint join (sep : string) (l : list string) : string :=
  match l with
  | [] => ""
  | [x] => x
  | x :: rest => x +:+ sep +:+ join sep rest
  end.

(** ** Criteria translator: [ImapService.buildSearchCriteria] *)

(** Modelled from the spec: the [SearchCriteria] type lives in
    [types/index.ts], which is not part of the sources at hand.  The fields
    are the ones the specification lists (four substring predicates, two
    date bounds, four tri-state predicates), each optional, which is also
    how [buildSearchCriteria] reads them. *)
Record SearchCriteria : Type := mkSearchCriteria {
  sc_from : option string;
  sc_to : option string;
  sc_subject : option string;
  sc_body : option string;
  sc_since : option Date;
  sc_before : option Date;
  sc_seen : option bool;
  sc_flagged : option bool;
  sc_answered : option bool;
  sc_draft : option bool
}.

(** One element of the array handed to [connection.search]:
    [['FROM', s]], [['SINCE', d]] or a bare keyword such as ['SEEN']. *)
Inductive SearchTerm : Type :=
| TermStr (key : string) (value : string)
| TermDate (key : string) (value : Date)
| TermKey (key : string).

(** [if (criteria.f) searchArray.push([key, criteria.f])], string field. *)
Definition push_string (key : string) (v : option string)
    (searchArray : list SearchTerm) : list SearchTerm :=
  match v with
  | Some s => if truthy s then searchArray ++ [TermStr key s] else searchArray
  | None => searchArray
  end.

(** [if (criteria.f) searchArray.push([key, criteria.f])], date field. *)
Definition push_date (key : string) (v : option Date)
    (searchArray : list SearchTerm) : list SearchTerm :=
  match v with
  | Some d => searchArray ++ [TermDate key d]
  | None => searchArray
  end.

(** [if (criteria.f !== undefined) searchArray.push(criteria.f ? pos : neg)]. *)
Definition push_tristate (pos neg : string) (v : option bool)
    (searchArray : list SearchTerm) : list SearchTerm :=
  match v with
  | Some b => searchArray ++ [TermKey (if b then pos else neg)]
  | None => searchArray
  end.

Definition buildSearchCriteria (criteria : SearchCriteria) : list SearchTerm :=
  let searchArray := [] in
  let searchArray := push_string "FROM" (sc_from criteria) searchArray in
  let searchArray := push_string "TO" (sc_to criteria) searchArray in
  let searchArray := push_string "SUBJECT" (sc_subject criteria) searchArray in
  let searchArray := push_string "BODY" (sc_body criteria) searchArray in
  let searchArray := push_date "SINCE" (sc_since criteria) searchArray in
  let searchArray := push_date "BEFORE" (sc_before criteria) searchArray in
  let searchArray := push_tristate "SEEN" "UNSEEN" (sc_seen criteria) searchArray in
  let searchArray := push_tristate "FLAGGED" "UNFLAGGED" (sc_flagged criteria) searchArray in
  let searchArray := push_tristate "ANSWERED" "UNANSWERED" (sc_answered criteria) searchArray in
  let searchArray := push_tristate "DRAFT" "UNDRAFT" (sc_draft criteria) searchArray in
  if (0 <? length searchArray)%nat then searchArray else [TermKey "ALL"].

(** *** Vocabulary for stating the translator's properties *)

(** The ten predicates of a [SearchCriteria], in the order in which
    [buildSearchCriteria] inspects them. *)
Inductive Field : Type :=
| FFrom | FTo | FSubject | FBody | FSince | FBefore
| FSeen | FFlagged | FAnswered | FDraft.

Definition field_order : list Field :=
  [FFrom; FTo; FSubject; FBody; FSince; FBefore; FSeen; FFlagged; FAnswered; FDraft].

(** A predicate is set when its field is not [undefined]. *)
Definition is_set (c : SearchCriteria) (f : Field) : bool :=
  match f with
  | FFrom => bool_decide (is_Some (sc_from c))
  | FTo => bool_decide (is_Some (sc_to c))
  | FSubject => bool_decide (is_Some (sc_subject c))
  | FBody => bool_decide (is_Some (sc_body c))
  | FSince => bool_decide (is_Some (sc_since c))
  | FBefore => bool_decide (is_Some (sc_before c))
  | FSeen => bool_decide (is_Some (sc_seen c))
  | FFlagged => bool_decide (is_Some (sc_flagged c))
  | FAnswered => bool_decide (is_Some (sc_answered c))
  | FDraft => bool_decide (is_Some (sc_draft c))
  end.

(** The number of non-unset predicates. *)
Definition predicates_set (c : SearchCriteria) : nat :=
  length (filter (fun f => is_set c f = true) field_order).

(** A predicate filters when it is set and, for the four substring
    predicates, its string is not empty. *)
Definition filters (c : SearchCriteria) (f : Field) : bool :=
  match f with
  | FFrom => from_option truthy false (sc_from c)
  | FTo => from_option truthy false (sc_to c)
  | FSubject => from_option truthy false (sc_subject c)
  | FBody => from_option truthy false (sc_body c)
  | _ => is_set c f
  end.

Definition predicates_filtering (c : SearchCriteria) : nat :=
  length (filter (fun f => filters c f = true) field_order).

(** The predicate a protocol term stems from, read off its keyword. *)
Definition term_field (t : SearchTerm) : option Field :=
  match t with
  | TermStr key _ =>
      if String.eqb key "FROM" then Some FFrom
      else if String.eqb key "TO" then Some FTo
      else if String.eqb key "SUBJECT" then Some FSubject
      else if String.eqb key "BODY" then Some FBody
      else None
  | TermDate key _ =>
      if String.eqb key "SINCE" then Some FSince
      else if String.eqb key "BEFORE" then Some FBefore
      else None
  | TermKey key =>
      if String.eqb key "SEEN" || String.eqb key "UNSEEN" then Some FSeen
      else if String.eqb key "FLAGGED" || String.eqb key "UNFLAGGED" then Some FFlagged
      else if String.eqb key "ANSWERED" || String.eqb key "UNANSWERED" then Some FAnswered
      else if String.eqb key "DRAFT" || String.eqb key "UNDRAFT" then Some FDraft
      else None
  end.

Definition noCriteria : SearchCriteria :=
  mkSearchCriteria None None None None None None None None None None.

(** ** Folder tree: [ImapService.parseBoxes] *)

(** A mailbox object as [connection.getBoxes] delivers it.  The object that
    maps leaf names to boxes is the list of its entries, in the order of
    [Object.entries].  [children] is [None] for [null] / [undefined]; an
    empty object is [Some []] (and is truthy). *)
Inductive Box : Type :=
| mkBox (delimiter : string) (attribs : option (list string))
        (children : option (list (string * Box))).

Definition box_delimiter (b : Box) : string :=
  match b with mkBox d _ _ => d end.
Definition box_attribs (b : Box) : option (list string) :=
  match b with mkBox _ a _ => a end.
Definition box_children (b : Box) : option (list (string * Box)) :=
  match b with mkBox _ _ c => c end.

(** The [Folder] objects built by [parseBoxes]; [children] stays unset when
    the box had none. *)
Inductive Folder : Type :=
| mkFolder (name : string) (delimiter : string) (attributes : list string)
           (children : option (list Folder)).

Definition folder_name (f : Folder) : string :=
  match f with mkFolder n _ _ _ => n end.
Definition folder_delimiter (f : Folder) : string :=
  match f with mkFolder _ d _ _ => d end.
Definition folder_attributes (f : Folder) : list string :=
  match f with mkFolder _ _ a _ => a end.
Definition folder_children (f : Folder) : option (list Folder) :=
  match f with mkFolder _ _ _ c => c end.

(** The body of the [for] loop of [parseBoxes] for one entry [[name, box]]. *)
Fixpoint parseBox (parentPath : string) (name : string) (boxData : Box) : Folder :=
  match boxData with
  | mkBox delimiter attribs children =>
      let folder_name :=
        if truthy parentPath then parentPath +:+ delimiter +:+ name else name in
      mkFolder folder_name delimiter (default [] attribs)
        (option_map
           (List.map (fun entry => parseBox folder_name (fst entry) (snd entry)))
           children)
  end.

Definition parseBoxes (boxes : list (string * Box)) (parentPath : string) : list Folder :=
  List.map (fun entry => parseBox parentPath (fst entry) (snd entry)) boxes.

(** Positions in a tree: [i :: rest] is "entry number [i], then [rest]
    below it". *)
Fixpoint box_at (path : list nat) (boxes : list (string * Box)) : option (string * Box) :=
  match path with
  | [] => None
  | i :: rest =>
      match boxes !! i with
      | None => None
      | Some entry =>
          match rest with
          | [] => Some entry
          | _ :: _ =>
              match box_children (snd entry) with
              | None => None
              | Some sub => box_at rest sub
              end
          end
      end
  end.

Fixpoint folder_at (path : list nat) (folders : list Folder) : option Folder :=
  match path with
  | [] => None
  | i :: rest =>
      match folders !! i with
      | None => None
      | Some f =>
          match rest with
          | [] => Some f
          | _ :: _ =>
              match folder_children f with
              | None => None
              | Some sub => folder_at rest sub
              end
          end
      end
  end.

(** The name the specification gives a child: the parent folder's full
    path, the parent folder's delimiter, the child's leaf name. *)
Definition spec_child_name (parent : Folder) (leaf : string) : string :=
  folder_name parent +:+ folder_delimiter parent +:+ leaf.

(** ** Outbound composer: the reply and forward tool handlers *)

(** Modelled from the spec: [ImapAccount] and [EmailContent] are declared
    in [types/index.ts], which is not part of the sources at hand; the
    fields are the ones the handlers and [ImapService.connect] read. *)
Record ImapAccount : Type := mkImapAccount {
  acc_id : string;
  acc_user : string;
  acc_password : string;
  acc_host : string;
  acc_port : Z;
  acc_tls : bool;
  acc_authTimeout : option Z;
  acc_connTimeout : option Z;
  acc_keepalive : option bool
}.

Record EmailContent : Type := mkEmailContent {
  em_uid : Z;
  em_date : Date;
  em_from : string;
  em_to : list string;
  em_subject : string;
  em_messageId : string;
  em_inReplyTo : option string;
  em_textContent : option string;
  em_htmlContent : option string
}.

(** [const recipients = [originalEmail.from];
     if (replyAll) recipients.push(...originalEmail.to.filter(addr => addr !== account.user));] *)
Definition reply_recipients (account : ImapAccount) (originalEmail : EmailContent)
    (replyAll : bool) : list string :=
  let recipients := [em_from originalEmail] in
  if replyAll
  then recipients ++
       List.filter (fun addr => negb (String.eqb addr (acc_user account)))
                   (em_to originalEmail)
  else recipients.

(** [subject.startsWith('Re: ') ? subject : `Re: ${subject}`] *)
Definition reply_subject (subject : string) : string :=
  if startsWith subject "Re: " then subject else "Re: " +:+ subject.

(** [subject.startsWith('Fwd: ') ? subject : `Fwd: ${subject}`] *)
Definition forward_subject (subject : string) : string :=
  if startsWith subject "Fwd: " then subject else "Fwd: " +:+ subject.

Section Composer.
(** [Buffer], [Buffer.from(_, 'base64')] and [Date.prototype.toLocaleString]
    belong to the runtime. *)
Context {Buffer : Type}.
Variable Buffer_from_base64 : string -> Buffer.
Variable toLocaleString : Date -> string.

Record AttachmentInput : Type := mkAttachmentInput {
  att_filename : string;
  att_content : option string;
  att_path : option string;
  att_contentType : option string
}.

Record Attachment : Type := mkAttachment {
  out_filename : string;
  out_content : option Buffer;
  out_path : option string;
  out_contentType : option string
}.

(** The [emailComposer] object handed to [smtpService.sendEmail]. *)
Record EmailComposer : Type := mkEmailComposer {
  ec_from : string;
  ec_to : list string;
  ec_subject : string;
  ec_text : option string;
  ec_html : option string;
  ec_inReplyTo : option string;
  ec_references : option string;
  ec_attachments : option (list Attachment)
}.

Definition map_attachment (att : AttachmentInput) : Attachment :=
  {| out_filename := att_filename att;
     out_content :=
       match att_content att with
       | Some c => if truthy c then Some (Buffer_from_base64 c) else None
       | None => None
       end;
     out_path := att_path att;
     out_contentType := att_contentType att |}.

(** The [emailComposer] of the [imap_reply_to_email] handler. *)
Definition replyComposer (account : ImapAccount) (originalEmail : EmailContent)
    (text html : option string) (replyAll : bool)
    (attachments : option (list AttachmentInput)) : EmailComposer :=
  let recipients := reply_recipients account originalEmail replyAll in
  {| ec_from := acc_user account;
     ec_to := recipients;
     ec_subject := reply_subject (em_subject originalEmail);
     ec_text := text;
     ec_html := html;
     ec_inReplyTo := Some (em_messageId originalEmail);
     ec_references := Some (em_messageId originalEmail);
     ec_attachments := option_map (List.map map_attachment) attachments |}.

(** [x || ''] on an optional string. *)
Definition or_empty (x : option string) : string := default "" x.

(** The [emailComposer] of the [imap_forward_email] handler ([to] is
    passed through; a single address is the one-element list). *)
Definition forwardComposer (account : ImapAccount) (originalEmail : EmailContent)
    (to : list string) (text : option string) : EmailComposer :=
  let nl := String (ascii_of_nat 10) "" in
  let forwardHeader :=
    nl +:+ nl +:+ "---------- Forwarded message ----------" +:+ nl +:+
    "From: " +:+ em_from originalEmail +:+ nl +:+
    "Date: " +:+ toLocaleString (em_date originalEmail) +:+ nl +:+
    "Subject: " +:+ em_subject originalEmail +:+ nl +:+
    "To: " +:+ join ", " (em_to originalEmail) +:+ nl +:+ nl in
  {| ec_from := acc_user account;
     ec_to := to;
     ec_subject := forward_subject (em_subject originalEmail);
     ec_text := Some (or_empty text +:+ forwardHeader +:+ or_empty (em_textContent originalEmail));
     ec_html := em_htmlContent originalEmail;
     ec_inReplyTo := None;
     ec_references := Some (em_messageId originalEmail);
     ec_attachments := None |}.
End Composer.

(** ** The session pool and the mailbox operations: [ImapService] *)

(** A JavaScript [Error]; what the code and the library throw, reject with
    or pass to a callback. *)
Record Error : Type := mkError { message : string }.

(** [uid: number | number[]]. *)
Inductive UidArg : Type :=
| Uid (uid : Z)
| Uids (uids : list Z).

(** The options object of [new Imap({...})]. *)
Record ImapConfig : Type := mkImapConfig {
  cfg_user : string;
  cfg_password : string;
  cfg_host : string;
  cfg_port : Z;
  cfg_tls : bool;
  cfg_authTimeout : Z;
  cfg_connTimeout : Z;
  cfg_keepalive : bool
}.

(** The part of [node-imap] the service uses.  [Conn] is the state of one
    connection object (with whatever of the server it lets one observe),
    [Net] is the outside world a new connection is opened into.  A command
    answers with the [err] argument of its callback ([None] for a falsy
    [err]); an exception thrown synchronously inside the promise executor
    rejects the promise just the same and is the same answer here.  The
    library is assumed to answer every command. *)
Class NodeImap (Conn Net : Type) : Type := {
  (** [new Imap(cfg)] and [connect()], up to the ['ready'] or ['error'] event *)
  imap_connect : ImapConfig -> Net -> (Error + Conn) * Net;
  (** [connection.end()] *)
  imap_end : Conn -> Net -> Net;
  (** [connection.openBox(name, readOnly, cb)] *)
  imap_openBox : string -> bool -> Conn -> option Error * Conn;
  (** [connection.addFlags(uid, flag, cb)] *)
  imap_addFlags : UidArg -> string -> Conn -> option Error * Conn;
  (** [connection.delFlags(uid, flag, cb)] *)
  imap_delFlags : UidArg -> string -> Conn -> option Error * Conn;
  (** [connection.expunge(cb)] *)
  imap_expunge : Conn -> option Error * Conn;
  (** [connection.move(uid, destination, cb)] *)
  imap_move : UidArg -> string -> Conn -> option Error * Conn
}.

(** The calls that cross the library interface. *)
Inductive Call : Type :=
| CallConnect (accountId : string) (cfg : ImapConfig)
| CallEnd (accountId : string)
| CallOpenBox (accountId : string) (folderName : string) (readOnly : bool)
| CallAddFlags (accountId : string) (uid : UidArg) (flag : string)
| CallDelFlags (accountId : string) (uid : UidArg) (flag : string)
| CallExpunge (accountId : string)
| CallMove (accountId : string) (uid : UidArg) (destinationFolder : string).

(** A call together with the library's answer to it. *)
Record Event : Type := mkEvent { ev_call : Call; ev_answer : option Error }.

Definition answered_ok (ev : Event) : Prop := ev_answer ev = None.

Definition is_delFlags (c : Call) : bool :=
  match c with CallDelFlags _ _ _ => true | _ => false end.

Definition is_connect_for (accountId : string) (c : Call) : bool :=
  match c with CallConnect a _ => String.eqb a accountId | _ => false end.

Definition to_result (err : option Error) : Error + unit :=
  match err with Some e => inl e | None => inr tt end.

Section Service.
Context {Conn Net : Type} `{!NodeImap Conn Net}.

(** The service with its surroundings.  [activeConnections] is the
    [Map<string, Imap>] of the class; the state of a connection object
    is kept in the map itself, and a reference to the object is the key
    it was fetched under (the service obtains every reference from
    [getConnection] and uses it within the same method).  [trace] is
    ghost state: the library calls made so far, oldest first. *)
Record State : Type := mkState {
  activeConnections : gmap string Conn;
  net : Net;
  trace : list Event
}.

(** Computations that read and write the state and may throw. *)
Definition M (A : Type) : Type := State -> (Error + A) * State.

Definition ret {A} (a : A) : M A := fun s => (inr a, s).
Definition throw {A} (e : Error) : M A := fun s => (inl e, s).
Definition bind {A B} (m : M A) (k : A -> M B) : M B :=
  fun s =>
    match m s with
    | (inl e, s') => (inl e, s')
    | (inr a, s') => k a s'
    end.

Notation "x <- m ;; k" := (bind m (fun x => k))
  (at level 100, m at next level, right associativity).
Notation "m ;;; k" := (bind m (fun _ => k))
  (at level 100, right associativity).

Definition no_active_connection (accountId : string) : Error :=
  mkError ("No active connection for account " +:+ accountId).

Definition connect (account : ImapAccount) : M unit :=
  fun s =>
    if bool_decide (is_Some (activeConnections s !! acc_id account))
    then (inr tt, s)
    else
      let cfg :=
        {| cfg_user := acc_user account;
           cfg_password := acc_password account;
           cfg_host := acc_host account;
           cfg_port := acc_port account;
           cfg_tls := acc_tls account;
           cfg_authTimeout :=
             match acc_authTimeout account with
             | Some t => if (t =? 0)%Z then 3000%Z else t
             | None => 3000%Z
             end;
           cfg_connTimeout :=
             match acc_connTimeout account with
             | Some t => if (t =? 0)%Z then 10000%Z else t
             | None => 10000%Z
             end;
           cfg_keepalive :=
             match acc_keepalive account with
             | Some false => false
             | _ => true
             end |} in
      let call := CallConnect (acc_id account) cfg in
      match imap_connect cfg (net s) with
      | (inr imap, net') =>
          (inr tt,
           {| activeConnections := <[acc_id account := imap]> (activeConnections s);
              net := net';
              trace := trace s ++ [mkEvent call None] |})
      | (inl err, net') =>
          (inl err,
           {| activeConnections := activeConnections s;
              net := net';
              trace := trace s ++ [mkEvent call (Some err)] |})
      end.

Definition disconnect (accountId : string) : M unit :=
  fun s =>
    match activeConnections s !! accountId with
    | Some connection =>
        (inr tt,
         {| activeConnections := delete accountId (activeConnections s);
            net := imap_end connection (net s);
            trace := trace s ++ [mkEvent (CallEnd accountId) None] |})
    | None => (inr tt, s)
    end.

(** Returns the reference to the connection object of [accountId]. *)
Definition getConnection (accountId : string) : M string :=
  fun s =>
    match activeConnections s !! accountId with
    | Some _ => (inr accountId, s)
    | None => (inl (no_active_connection accountId), s)
    end.

(** One command on the object behind [connection], wrapped in a promise
    that rejects with the command's error and resolves otherwise. *)
Definition command (connection : string) (call : Call)
    (run : Conn -> option Error * Conn) : M unit :=
  fun s =>
    match activeConnections s !! connection with
    | Some imap =>
        let '(err, imap') := run imap in
        (to_result err,
         {| activeConnections := <[connection := imap']> (activeConnections s);
            net := net s;
            trace := trace s ++ [mkEvent call err] |})
    | None => (inl (no_active_connection connection), s)
    end.

Definition selectFolder (accountId folderName : string) : M unit :=
  connection <- getConnection accountId ;;
  command connection (CallOpenBox accountId folderName false)
          (imap_openBox folderName false).

Definition markAsRead (accountId folderName : string) (uid : UidArg) : M unit :=
  selectFolder accountId folderName ;;;
  connection <- getConnection accountId ;;
  command connection (CallAddFlags accountId uid "\Seen") (imap_addFlags uid "\Seen").

Definition markAsUnread (accountId folderName : string) (uid : UidArg) : M unit :=
  selectFolder accountId folderName ;;;
  connection <- getConnection accountId ;;
  command connection (CallDelFlags accountId uid "\Seen") (imap_delFlags uid "\Seen").

Definition deleteEmail (accountId folderName : string) (uid : UidArg) : M unit :=
  selectFolder accountId folderName ;;;
  connection <- getConnection accountId ;;
  command connection (CallAddFlags accountId uid "\Deleted") (imap_addFlags uid "\Deleted") ;;;
  command connection (CallExpunge accountId) imap_expunge.

Definition moveEmail (accountId sourceFolder destinationFolder : string)
    (uid : UidArg) : M unit :=
  selectFolder accountId sourceFolder ;;;
  connection <- getConnection accountId ;;
  command connection (CallMove accountId uid destinationFolder)
          (imap_move uid destinationFolder).

(** *** The tool handlers of mark / delete / move *)

(** [const uidToProcess = uids || uid]: an array is truthy, also when it
    is empty. *)
Definition uidToProcess (uid : option Z) (uids : option (list Z)) : option UidArg :=
  match uids with
  | Some l => Some (Uids l)
  | None => option_map Uid uid
  end.

Definition uid_required : Error :=
  mkError "Either uid or uids parameter is required".

(** The object serialised into the tool response. *)
Record ToolResult : Type := mkToolResult { success : bool; result_message : string }.

(** [Array.isArray(uidToProcess) ? `${uidToProcess.length} emails ${what}`
                                   : `Email ${uidToProcess} ${what}`].
    The length of an array prints as its decimal digits.  A scalar uid is
    printed in decimal as well, which is the text of the template literal
    for an integer of magnitude up to 2^53 (every IMAP uid is one); past
    that JavaScript rounds the digits and, from 10^21 on, uses exponent
    notation, which is not followed here. *)
Definition done_message (u : UidArg) (what : string) : string :=
  match u with
  | Uids l => pretty (length l) +:+ " emails " +:+ what
  | Uid n => "Email " +:+ pretty n +:+ " " +:+ what
  end.

Definition imap_mark_as_read (accountId : string) (folder : option string)
    (uid : option Z) (uids : option (list Z)) : M ToolResult :=
  let folder := default "INBOX" folder in
  match uidToProcess uid uids with
  | None => throw uid_required
  | Some uidToProcess =>
      markAsRead accountId folder uidToProcess ;;;
      ret (mkToolResult true (done_message uidToProcess "marked as read"))
  end.

Definition imap_mark_as_unread (accountId : string) (folder : option string)
    (uid : option Z) (uids : option (list Z)) : M ToolResult :=
  let folder := default "INBOX" folder in
  match uidToProcess uid uids with
  | None => throw uid_required
  | Some uidToProcess =>
      markAsUnread accountId folder uidToProcess ;;;
      ret (mkToolResult true (done_message uidToProcess "marked as unread"))
  end.

Definition imap_delete_email (accountId : string) (folder : option string)
    (uid : option Z) (uids : option (list Z)) : M ToolResult :=
  let folder := default "INBOX" folder in
  match uidToProcess uid uids with
  | None => throw uid_required
  | Some uidToProcess =>
      deleteEmail accountId folder uidToProcess ;;;
      ret (mkToolResult true (done_message uidToProcess "deleted"))
  end.

Definition imap_move_email (accountId sourceFolder destinationFolder : string)
    (uid : option Z) (uids : option (list Z)) : M ToolResult :=
  match uidToProcess uid uids with
  | None => throw uid_required
  | Some uidToProcess =>
      moveEmail accountId sourceFolder destinationFolder uidToProcess ;;;
      ret (mkToolResult true
             (done_message uidToProcess
                ("moved from '" +:+ sourceFolder +:+ "' to '" +:+ destinationFolder +:+ "'")))
  end.

(** *** The four batch mutations under one name *)

Inductive Mutation : Type :=
| MarkRead
| MarkUnread
| Delete
| Move (destinationFolder : string).

(** The service method behind a mutation. *)
Definition mutate (op : Mutation) (accountId folder : string) (uid : UidArg) : M unit :=
  match op with
  | MarkRead => markAsRead accountId folder uid
  | MarkUnread => markAsUnread accountId folder uid
  | Delete => deleteEmail accountId folder uid
  | Move destinationFolder => moveEmail accountId folder destinationFolder uid
  end.

(** The tool behind a mutation, called with an explicit folder. *)
Definition mutate_tool (op : Mutation) (accountId folder : string)
    (uid : option Z) (uids : option (list Z)) : M ToolResult :=
  match op with
  | MarkRead => imap_mark_as_read accountId (Some folder) uid uids
  | MarkUnread => imap_mark_as_unread accountId (Some folder) uid uids
  | Delete => imap_delete_email accountId (Some folder) uid uids
  | Move destinationFolder => imap_move_email accountId folder destinationFolder uid uids
  end.

(** The command a mutation issues first once the folder is selected; it
    carries the whole uid argument. *)
Definition first_command (op : Mutation) (accountId : string) (uid : UidArg) : Call :=
  match op with
  | MarkRead => CallAddFlags accountId uid "\Seen"
  | MarkUnread => CallDelFlags accountId uid "\Seen"
  | Delete => CallAddFlags accountId uid "\Deleted"
  | Move destinationFolder => CallMove accountId uid destinationFolder
  end.

(** What that command does to the connection. *)
Definition run_first_command (op : Mutation) (uid : UidArg)
    : Conn -> option Error * Conn :=
  match op with
  | MarkRead => imap_addFlags uid "\Seen"
  | MarkUnread => imap_delFlags uid "\Seen"
  | Delete => imap_addFlags uid "\Deleted"
  | Move destinationFolder => imap_move uid destinationFolder
  end.


(** The calls made by a computation started in [s]. *)
Definition calls_of {A} (m : M A) (s : State) : list Event :=
  drop (length (trace s)) (trace (snd (m s))).

(** The number of entries of the connection map registered under
    [accountId]. *)
Definition sessions_of (accountId : string) (s : State) : nat :=
  length (filter (fun kv => fst kv = accountId) (map_to_list (activeConnections s))).

(** The number of connections opened for [accountId] among [evs]. *)
Definition connects_for (accountId : string) (evs : list Event) : nat :=
  length (filter (fun ev => is_connect_for accountId (ev_call ev) = true) evs).
End Service.

Arguments State : clear implicits.
Arguments M : clear implicits.

(** ** A reference mail server behind the library interface

    A small in-memory IMAP server used to run the service on concrete
    inputs.  Flag commands follow RFC 3501, 6.4.8: a unique identifier that
    does not exist in the selected mailbox is ignored, with no error. *)
Module Mock.

Record Message : Type := mkMessage { m_uid : Z; m_flags : list string }.

Record Conn : Type := mkConn {
  boxes : list (string * list Message);
  selected : option string;
  (** when set, [EXPUNGE] is answered with this error *)
  expunge_failure : option string
}.

(** The reachable hosts, each with the mailboxes it serves. *)
Definition Net : Type := list (string * Conn).

Definition has_uid (u : UidArg) (m : Message) : bool :=
  match u with
  | Uid n => (m_uid m =? n)%Z
  | Uids l => bool_decide (m_uid m ∈ l)
  end.

Definition has_flag (flag : string) (m : Message) : bool :=
  bool_decide (flag ∈ m_flags m).

Definition set_flag (flag : string) (m : Message) : Message :=
  if has_flag flag m then m else mkMessage (m_uid m) (m_flags m ++ [flag]).

Definition clear_flag (flag : string) (m : Message) : Message :=
  mkMessage (m_uid m) (List.filter (fun f => negb (String.eqb f flag)) (m_flags m)).

Fixpoint find_box (name : string) (bs : list (string * list Message))
    : option (list Message) :=
  match bs with
  | [] => None
  | (n, msgs) :: rest => if String.eqb n name then Some msgs else find_box name rest
  end.

Fixpoint update_box (name : string) (f : list Message -> list Message)
    (bs : list (string * list Message)) : list (string * list Message) :=
  match bs with
  | [] => []
  | (n, msgs) :: rest =>
      if String.eqb n name then (n, f msgs) :: rest
      else (n, msgs) :: update_box name f rest
  end.

Definition not_selected : Error := mkError "No mailbox is currently selected".

Definition openBox (name : string) (readOnly : bool) (c : Conn) : option Error * Conn :=
  match find_box name (boxes c) with
  | Some _ => (None, mkConn (boxes c) (Some name) (expunge_failure c))
  | None => (Some (mkError "Mailbox doesn't exist"), mkConn (boxes c) None (expunge_failure c))
  end.

Definition store (change : string -> Message -> Message) (u : UidArg) (flag : string)
    (c : Conn) : option Error * Conn :=
  match selected c with
  | None => (Some not_selected, c)
  | Some box =>
      (None,
       mkConn (update_box box
                 (List.map (fun m => if has_uid u m then change flag m else m))
                 (boxes c))
              (selected c) (expunge_failure c))
  end.

Definition expunge (c : Conn) : option Error * Conn :=
  match selected c with
  | None => (Some not_selected, c)
  | Some box =>
      match expunge_failure c with
      | Some msg => (Some (mkError msg), c)
      | None =>
          (None,
           mkConn (update_box box
                     (List.filter (fun m => negb (has_flag "\Deleted" m)))
                     (boxes c))
                  (selected c) (expunge_failure c))
      end
  end.

Definition move (u : UidArg) (destination : string) (c : Conn) : option Error * Conn :=
  match selected c with
  | None => (Some not_selected, c)
  | Some box =>
      match find_box destination (boxes c), find_box box (boxes c) with
      | Some _, Some msgs =>
          let moved := List.filter (has_uid u) msgs in
          (None,
           mkConn (update_box destination (fun old => old ++ moved)
                     (update_box box (List.filter (fun m => negb (has_uid u m)))
                        (boxes c)))
                  (selected c) (expunge_failure c))
      | _, _ => (Some (mkError "[TRYCREATE] Mailbox doesn't exist"), c)
      end
  end.

Fixpoint find_host (host : string) (n : Net) : option Conn :=
  match n with
  | [] => None
  | (h, c) :: rest => if String.eqb h host then Some c else find_host host rest
  end.

Definition open (cfg : ImapConfig) (n : Net) : (Error + Conn) * Net :=
  match find_host (cfg_host cfg) n with
  | Some c => (inr c, n)
  | None => (inl (mkError "getaddrinfo ENOTFOUND"), n)
  end.

#[global] Instance node_imap : NodeImap Conn Net := {
  imap_connect := open;
  imap_end := fun _ n => n;
  imap_openBox := openBox;
  imap_addFlags := store set_flag;
  imap_delFlags := store clear_flag;
  imap_expunge := expunge;
  imap_move := move
}.

(** The flags of message [uid] of [folder], as the connection registered
    for [accountId] shows them. *)
Definition flags_of (accountId folder : string) (uid : Z) (s : State Conn Net)
    : option (list string) :=
  match activeConnections s !! accountId with
  | None => None
  | Some c =>
      match find_box folder (boxes c) with
      | None => None
      | Some msgs => m_flags <$> List.find (fun m => (m_uid m =? uid)%Z) msgs
      end
  end.

(** *** The scenario of the specification: account [A], folder [INBOX]
    with the messages 1, 2, 3, none of them seen. *)

Definition inbox : list Message :=
  [mkMessage 1 []; mkMessage 2 []; mkMessage 3 []].

Definition server : Conn := mkConn [("INBOX", inbox); ("Archive", [])] None None.


Definition account_A : ImapAccount :=
  mkImapAccount "A" "me@example.org" "secret" "mail.example.org" 993 true None None None.

Definition internet : Net := [("mail.example.org", server)].

Definition disconnected : State Conn Net := mkState ∅ internet [].

Definition ready : State Conn Net := mkState {["A" := server]} internet [].


End Mock.

(** ** The search, latest-emails and get-email tool handlers

    What these handlers compute around their single call into the
    service: the criteria object of [imap_search_emails], the limiting of
    its result, the ordering of [imap_get_latest_emails] and the
    shortening of the bodies in [imap_get_email]. *)

(** The optional search fields of the [imap_search_emails] input. *)
Record SearchArgs : Type := mkSearchArgs {
  sa_from : option string;
  sa_to : option string;
  sa_subject : option string;
  sa_body : option string;
  sa_since : option string;
  sa_before : option string;
  sa_seen : option bool;
  sa_flagged : option bool
}.

(** [if (x) criteria.f = x] on an optional string. *)
Definition when_truthy (x : option string) : option string :=
  match x with
  | Some s => if truthy s then Some s else None
  | None => None
  end.

(** The [criteria] object the search handler builds; [newDate] is
    [new Date(_)] on a string. *)
Definition search_tool_criteria (newDate : string -> Date) (args : SearchArgs)
    : SearchCriteria :=
  {| sc_from := when_truthy (sa_from args);
     sc_to := when_truthy (sa_to args);
     sc_subject := when_truthy (sa_subject args);
     sc_body := when_truthy (sa_body args);
     sc_since := newDate <$> when_truthy (sa_since args);
     sc_before := newDate <$> when_truthy (sa_before args);
     sc_seen := sa_seen args;
     sc_flagged := sa_flagged args;
     sc_answered := None;
     sc_draft := None |}.

(** Modelled from the spec: [EmailMessage] is declared in [types/index.ts],
    which is not part of the sources at hand; the fields are the ones
    [searchEmails] fills in. *)
Record EmailMessage : Type := mkEmailMessage {
  msg_uid : Z;
  msg_date : Date;
  msg_from : string;
  msg_to : list string;
  msg_subject : string;
  msg_messageId : string;
  msg_inReplyTo : option string;
  msg_flags : list string
}.

(** [Array.prototype.slice(0, stop)]; [stop] is the integer the number is
    truncated to.  A negative [stop] counts from the end. *)
Definition slice0 {A} (l : list A) (stop : Z) : list A :=
  let len := Z.of_nat (length l) in
  let final := if (stop <? 0)%Z then Z.max (len + stop) 0 else Z.min stop len in
  take (Z.to_nat final) l.

(** The object the search handler serialises. *)
Record SearchResponse : Type := mkSearchResponse {
  totalFound : nat;
  returned : nat;
  messages : list EmailMessage
}.

Definition search_tool_response (found : list EmailMessage) (limit : Z) : SearchResponse :=
  let limitedMessages := slice0 found limit in
  {| totalFound := length found;
     returned := length limitedMessages;
     messages := limitedMessages |}.

(** [Date.prototype.getTime]; [None] is [NaN]. *)
Definition getTime (d : Date) : option Z :=
  match d with
  | DateMs ms => Some ms
  | InvalidDate => None
  end.

(** The comparator [(a, b) => b.date.getTime() - a.date.getTime()]. *)
Definition newest_first (a b : EmailMessage) : option Z :=
  match getTime (msg_date b), getTime (msg_date a) with
  | Some tb, Some ta => Some (tb - ta)%Z
  | _, _ => None
  end.

(** A comparator result greater than zero puts the first argument behind
    the second; zero and [NaN] leave the two as they were. *)
Definition behind (v : option Z) : bool :=
  match v with
  | Some z => (0 <? z)%Z
  | None => false
  end.

(** [Array.prototype.sort(cmp)] as the stable insertion sort.  For a
    comparator that orders its arguments consistently the result of a
    stable sort is determined, so every conforming engine returns this
    list; for other comparators the language leaves the order open. *)
Fixpoint sort_insert {A} (cmp : A -> A -> option Z) (x : A) (l : list A) : list A :=
  match l with
  | [] => [x]
  | y :: rest => if behind (cmp x y) then y :: sort_insert cmp x rest else x :: l
  end.

Fixpoint js_sort {A} (cmp : A -> A -> option Z) (l : list A) : list A :=
  match l with
  | [] => []
  | x :: rest => sort_insert cmp x (js_sort cmp rest)
  end.

(** [messages.sort(...).slice(0, count)] of [imap_get_latest_emails]. *)
Definition latest_emails (found : list EmailMessage) (count : Z) : list EmailMessage :=
  slice0 (js_sort newest_first found) count.

(** [b] is at least as recent as [a]. *)
Definition not_older (b a : EmailMessage) : Prop :=
  match getTime (msg_date b), getTime (msg_date a) with
  | Some tb, Some ta => (ta <= tb)%Z
  | _, _ => False
  end.

Definition valid_date (m : EmailMessage) : Prop := is_Some (getTime (msg_date m)).

(** The messages dated [t], in the order of the list. *)
Definition dated (t : Z) (l : list EmailMessage) : list EmailMessage :=
  List.filter (fun m => bool_decide (getTime (msg_date m) = Some t)) l.

(** *** Strings as JavaScript counts them

    A string is kept as its UTF-8 bytes (a lone surrogate in its three-byte
    form).  JavaScript's [length] and [substring] count UTF-16 code units:
    one for a character of one, two or three bytes, two (a surrogate pair)
    for a character of four bytes. *)

(** A byte [10xxxxxx]: the second, third or fourth byte of a character. *)
Definition is_continuation (b : ascii) : bool :=
  (128 <=? N_of_ascii b)%N && (N_of_ascii b <? 192)%N.

(** A byte [11110xxx]: the first of a four-byte character. *)
Definition starts_pair (b : ascii) : bool := (240 <=? N_of_ascii b)%N.

(** [String.prototype.length]. *)
Fixpoint utf16_length (s : string) : nat :=
  match s with
  | EmptyString => 0%nat
  | String b rest =>
      ((if is_continuation b then 0 else if starts_pair b then 2 else 1)
       + utf16_length rest)%nat
  end.

Definition byte_at (i : nat) (s : string) : ascii :=
  default (ascii_of_N 128) (String.get i s).

(** The first half (the high surrogate) of the four-byte character
    [b0 b1 b2 b3], in its three-byte form. *)
Definition high_surrogate (b0 b1 b2 b3 : ascii) : string :=
  let cp := ((N_of_ascii b0 mod 8) * 262144 + (N_of_ascii b1 mod 64) * 4096
             + (N_of_ascii b2 mod 64) * 64 + N_of_ascii b3 mod 64)%N in
  let high := (55296 + (cp - 65536) / 1024)%N in
  String (ascii_of_N 237)
    (String (ascii_of_N (128 + (high / 64) mod 64))
       (String (ascii_of_N (128 + high mod 64)) EmptyString)).

(** [String.prototype.substring(0, n)]: the first [n] code units.  When
    the cut falls inside a surrogate pair the result ends in the pair's
    first half. *)
Fixpoint js_substring0 (n : nat) (s : string) : string :=
  match s with
  | EmptyString => EmptyString
  | String b rest =>
      if is_continuation b then String b (js_substring0 n rest)
      else
        match n with
        | O => EmptyString
        | S n1 =>
            if starts_pair b then
              match n1 with
              | S n2 => String b (js_substring0 n2 rest)
              | O => high_surrogate b (byte_at 0 rest) (byte_at 1 rest) (byte_at 2 rest)
              end
            else String b (js_substring0 n1 rest)
        end
  end.

(** [shown] is a beginning of [body]: a prefix of it, or a prefix followed
    by the first half of the four-byte character that comes next. *)
Definition is_cut_of (body shown : string) : Prop :=
  exists front rest,
    body = front +:+ rest /\
    (shown = front \/
     exists b tail,
       rest = String b tail /\ starts_pair b = true /\
       shown = front +:+ high_surrogate b (byte_at 0 tail) (byte_at 1 tail) (byte_at 2 tail)).

(** The number of code units [imap_get_email] keeps of a body. *)
Definition content_limit : nat := Z.to_nat 10000.

(** [{...email, textContent: email.textContent?.substring(0, 10000),
                htmlContent: email.htmlContent?.substring(0, 10000)}] *)
Definition get_email_view (email : EmailContent) : EmailContent :=
  {| em_uid := em_uid email;
     em_date := em_date email;
     em_from := em_from email;
     em_to := em_to email;
     em_subject := em_subject email;
     em_messageId := em_messageId email;
     em_inReplyTo := em_inReplyTo email;
     em_textContent := js_substring0 content_limit <$> em_textContent email;
     em_htmlContent := js_substring0 content_limit <$> em_htmlContent email |}.

(** ** Vocabulary for the folder tree and for the session pool *)

(** The entries met on the way down to a position of the tree. *)
Fixpoint entries_at (path : list nat) (boxes : list (string * Box))
    : option (list (string * Box)) :=
  match path with
  | [] => Some []
  | i :: rest =>
      match boxes !! i with
      | None => None
      | Some entry =>
          match rest with
          | [] => Some [entry]
          | _ :: _ =>
              match box_children (snd entry) with
              | None => None
              | Some sub => cons entry <$> entries_at rest sub
              end
          end
      end
  end.

(** An account on a host that does not resolve. *)
Definition account_unreachable : ImapAccount :=
  mkImapAccount "B" "me@example.net" "secret" "mail.example.net" 993 true
                (Some 0%Z) None (Some false).

(** Splits a disjunction of [key = "..." /\ _] cases and drops the ones
    whose keyword differs. *)
Ltac keyword_cases H :=
  repeat match type of H with _ \/ _ => destruct H as [H|H] end;
  let Hk := fresh "Hk" in
  destruct H as [Hk H]; try discriminate Hk.

Definition is_expunge (c : Call) : bool :=
  match c with CallExpunge _ => true | _ => false end.

Section Frame.
Context {Conn Net : Type} `{!NodeImap Conn Net}.

(** A computation that is confined to the session of [accountId]: it
    leaves the network and every other account's connection alone, neither
    registers nor drops the session of [accountId], and only adds to the
    trace. *)
Definition confined_to {A} (accountId : string) (m : M Conn Net A) : Prop :=
  forall s : State Conn Net,
    net (snd (m s)) = net s /\
    (forall other, other <> accountId ->
       activeConnections (snd (m s)) !! other = activeConnections s !! other) /\
    (is_Some (activeConnections (snd (m s)) !! accountId) <->
     is_Some (activeConnections s !! accountId)) /\
    trace s `prefix_of` trace (snd (m s)).

End Frame.

(** * Properties *)

(** ** Criteria translator *)

Lemma push_string_app (key : string) (v : option string) (l : list SearchTerm) :
  push_string key v l = l ++ push_string key v [].
Proof.
  unfold push_string. destruct v as [s|]; [destruct (truthy s)|];
    simpl; now rewrite ?app_nil_r.
Qed.

Lemma push_date_app (key : string) (v : option Date) (l : list SearchTerm) :
  push_date key v l = l ++ push_date key v [].
Proof. unfold push_date. destruct v; simpl; now rewrite ?app_nil_r. Qed.

Lemma push_tristate_app (pos neg : string) (v : option bool) (l : list SearchTerm) :
  push_tristate pos neg v l = l ++ push_tristate pos neg v [].
Proof. unfold push_tristate. destruct v; simpl; now rewrite ?app_nil_r. Qed.

(** The array before the final "empty means ALL" test, field by field. *)
Lemma buildSearchCriteria_unfold (c : SearchCriteria) :
  buildSearchCriteria c =
  let searchArray :=
    push_string "FROM" (sc_from c) [] ++ push_string "TO" (sc_to c) [] ++
    push_string "SUBJECT" (sc_subject c) [] ++ push_string "BODY" (sc_body c) [] ++
    push_date "SINCE" (sc_since c) [] ++ push_date "BEFORE" (sc_before c) [] ++
    push_tristate "SEEN" "UNSEEN" (sc_seen c) [] ++
    push_tristate "FLAGGED" "UNFLAGGED" (sc_flagged c) [] ++
    push_tristate "ANSWERED" "UNANSWERED" (sc_answered c) [] ++
    push_tristate "DRAFT" "UNDRAFT" (sc_draft c) [] in
  if (0 <? length searchArray)%nat then searchArray else [TermKey "ALL"].
Proof.
  unfold buildSearchCriteria. cbv zeta.
  rewrite (push_tristate_app "DRAFT"), (push_tristate_app "ANSWERED"),
    (push_tristate_app "FLAGGED"), (push_tristate_app "SEEN"),
    (push_date_app "BEFORE"), (push_date_app "SINCE"),
    (push_string_app "BODY"), (push_string_app "SUBJECT"),
    (push_string_app "TO").
  now rewrite <- !app_assoc.
Qed.

Lemma field_order_split :
  field_order =
  [FFrom] ++ [FTo] ++ [FSubject] ++ [FBody] ++ [FSince] ++ [FBefore] ++
  [FSeen] ++ [FFlagged] ++ [FAnswered] ++ [FDraft].
Proof. reflexivity. Qed.

(** Every pushed term names the field it was pushed for, and a term is
    pushed exactly when that field filters. *)
Lemma raw_terms_fields (c : SearchCriteria) :
  let searchArray :=
    push_string "FROM" (sc_from c) [] ++ push_string "TO" (sc_to c) [] ++
    push_string "SUBJECT" (sc_subject c) [] ++ push_string "BODY" (sc_body c) [] ++
    push_date "SINCE" (sc_since c) [] ++ push_date "BEFORE" (sc_before c) [] ++
    push_tristate "SEEN" "UNSEEN" (sc_seen c) [] ++
    push_tristate "FLAGGED" "UNFLAGGED" (sc_flagged c) [] ++
    push_tristate "ANSWERED" "UNANSWERED" (sc_answered c) [] ++
    push_tristate "DRAFT" "UNDRAFT" (sc_draft c) [] in
  omap term_field searchArray = filter (fun f => filters c f = true) field_order /\
  length searchArray = predicates_filtering c.
Proof.
  cbv zeta. unfold predicates_filtering. rewrite field_order_split.
  rewrite !filter_app, !omap_app, !length_app.
  destruct c as [f t su b si be se fl an dr]; cbn [sc_from sc_to sc_subject sc_body
    sc_since sc_before sc_seen sc_flagged sc_answered sc_draft].
  split.
  - repeat (f_equal; [ first
      [ match goal with |- context [push_string _ ?v _] => destruct v as [[|? ?]|] end
      | match goal with |- context [push_date _ ?v _] => destruct v end
      | match goal with |- context [push_tristate _ _ ?v _] => destruct v as [[|]|] end ];
      reflexivity | ]).
    destruct dr as [[|]|]; reflexivity.
  - repeat (f_equal; [ first
      [ match goal with |- context [push_string _ ?v _] => destruct v as [[|? ?]|] end
      | match goal with |- context [push_date _ ?v _] => destruct v end
      | match goal with |- context [push_tristate _ _ ?v _] => destruct v as [[|]|] end ];
      reflexivity | ]).
    destruct dr as [[|]|]; reflexivity.
Qed.

Lemma omap_length_le {A B} (f : A -> option B) (l : list A) :
  (length (omap f l) <= length l)%nat.
Proof.
  induction l as [|x l IH]; [reflexivity|].
  cbn. destruct (f x); cbn; lia.
Qed.

(** [omap] keeps the length only if it drops nothing. *)
Lemma omap_total {A B} (f : A -> option B) (l : list A) :
  length (omap f l) = length l -> Forall (fun x => is_Some (f x)) l.
Proof.
  induction l as [|x l IH]; [constructor|].
  pose proof (omap_length_le f l) as Hle.
  cbn. destruct (f x) eqn:E; cbn; intros Hl.
  - constructor; [rewrite E; eauto | apply IH; lia].
  - lia.
Qed.

Lemma predicates_set_0 (c : SearchCriteria) :
  predicates_set c = 0%nat -> c = noCriteria.
Proof.
  destruct c as [f t su b si be se fl an dr]. unfold predicates_set, noCriteria.
  intros H.
  destruct f; [discriminate H|]. destruct t; [discriminate H|].
  destruct su; [discriminate H|]. destruct b; [discriminate H|].
  destruct si; [discriminate H|]. destruct be; [discriminate H|].
  destruct se; [discriminate H|]. destruct fl; [discriminate H|].
  destruct an; [discriminate H|]. destruct dr; [discriminate H|].
  reflexivity.
Qed.

(** C3. For every search criteria in which no predicate is set, the
    translator returns the one-element array [['ALL']]: the "match all"
    sentinel and nothing else. *)
Theorem C3_no_predicate_yields_ALL (c : SearchCriteria) :
  predicates_set c = 0%nat -> buildSearchCriteria c = [TermKey "ALL"].
Proof. intros H. apply predicates_set_0 in H. subst c. reflexivity. Qed.

Lemma C3_witness :
  predicates_set noCriteria = 0%nat /\ buildSearchCriteria noCriteria = [TermKey "ALL"].
Proof.
  split; [reflexivity|].
  apply (C3_no_predicate_yields_ALL noCriteria). reflexivity.
Defined.

(** C4, as stated, fails: a substring predicate that is set to the empty
    string is skipped by the truthiness test.  With [from = ""] and
    [seen = true] two predicates are set and one term comes out. *)
Lemma C4_counterexample :
  let c := mkSearchCriteria (Some "") None None None None None (Some true)
                            None None None in
  (0 < predicates_set c)%nat /\
  predicates_set c = 2%nat /\
  buildSearchCriteria c = [TermKey "SEEN"] /\
  length (buildSearchCriteria c) <> predicates_set c.
Proof. cbv zeta. repeat split; try reflexivity; vm_compute; lia. Qed.

(** C4 (amended). For every search criteria in which at least one
    predicate filters (it is set and, for the substring predicates from,
    to, subject and body, not the empty string), the translator produces
    exactly one term per filtering predicate, tri-state predicates
    included, and the terms come in the fixed field order from, to,
    subject, body, since, before, seen, flagged, answered, draft. *)
Theorem C4_one_term_per_filtering_predicate_in_field_order (c : SearchCriteria) :
  (0 < predicates_filtering c)%nat ->
  length (buildSearchCriteria c) = predicates_filtering c /\
  omap term_field (buildSearchCriteria c) =
    filter (fun f => filters c f = true) field_order /\
  Forall (fun t => is_Some (term_field t)) (buildSearchCriteria c).
Proof.
  intros Hpos. rewrite buildSearchCriteria_unfold.
  destruct (raw_terms_fields c) as [Hfields Hlen]. cbv zeta in *.
  set (raw := _ ++ _) in *.
  rewrite Hlen. destruct (Nat.ltb_spec 0 (predicates_filtering c)); [|lia].
  split; [exact Hlen|]. split; [exact Hfields|].
  assert (Hl : length (omap term_field raw) = length raw).
  { rewrite Hfields, Hlen. reflexivity. }
  now apply omap_total.
Qed.

Lemma C4_witness :
  let c := mkSearchCriteria (Some "alice") None None None (Some (DateMs 0)) None
                            (Some false) None None None in
  length (buildSearchCriteria c) = 3%nat /\
  omap term_field (buildSearchCriteria c) = [FFrom; FSince; FSeen].
Proof.
  cbv zeta.
  pose proof (C4_one_term_per_filtering_predicate_in_field_order
    (mkSearchCriteria (Some "alice") None None None (Some (DateMs 0)) None
                      (Some false) None None None)) as H.
  destruct H as (Hlen & Hord & _); [vm_compute; lia|].
  split; [exact Hlen | exact Hord].
Defined.

(** ** Folder tree *)

Lemma lookup_map {A B} (f : A -> B) (l : list A) (i : nat) :
  List.map f l !! i = f <$> l !! i.
Proof.
  revert i. induction l as [|x l IH]; intros [|i]; cbn; try reflexivity.
  apply IH.
Qed.

Lemma parseBoxes_lookup (boxes : list (string * Box)) (parentPath : string) (i : nat) :
  parseBoxes boxes parentPath !! i =
  (fun entry => parseBox parentPath (fst entry) (snd entry)) <$> boxes !! i.
Proof. apply lookup_map. Qed.

Lemma parseBox_children (parentPath name : string) (b : Box) :
  folder_children (parseBox parentPath name b) =
  (fun sub => parseBoxes sub (folder_name (parseBox parentPath name b)))
    <$> box_children b.
Proof. destruct b as [d a [sub|]]; reflexivity. Qed.

Lemma parseBox_name (parentPath name : string) (b : Box) :
  folder_name (parseBox parentPath name b) =
  if truthy parentPath then parentPath +:+ box_delimiter b +:+ name else name.
Proof. destruct b; reflexivity. Qed.

Lemma parseBox_delimiter (parentPath name : string) (b : Box) :
  folder_delimiter (parseBox parentPath name b) = box_delimiter b.
Proof. destruct b; reflexivity. Qed.

(** A folder of the output sits where its box sits in the input. *)
Lemma folder_at_parseBoxes (path : list nat) :
  forall (boxes : list (string * Box)) (parentPath : string) (f : Folder),
    folder_at path (parseBoxes boxes parentPath) = Some f ->
    exists name b parentPath',
      box_at path boxes = Some (name, b) /\ f = parseBox parentPath' name b.
Proof.
  induction path as [|i rest IH]; intros boxes parentPath f H; [discriminate|].
  cbn [folder_at box_at] in *. rewrite parseBoxes_lookup in H.
  destruct (boxes !! i) as [[name b]|]; cbn in H; [|discriminate].
  destruct rest as [|j rest].
  - injection H as <-. eauto.
  - cbn [snd]. rewrite parseBox_children in H.
    destruct (box_children b) as [sub|]; cbn in H; [|discriminate].
    apply IH in H. exact H.
Qed.

Lemma folder_at_snoc (path : list nat) (i : nat) :
  forall folders : list Folder,
    path <> [] ->
    folder_at (path ++ [i]) folders =
    match folder_at path folders with
    | Some f => match folder_children f with Some sub => sub !! i | None => None end
    | None => None
    end.
Proof.
  induction path as [|j rest IH]; intros folders Hne; [congruence|].
  cbn [app folder_at]. destruct (folders !! j) as [f|]; [|reflexivity].
  destruct rest as [|k rest].
  - cbn. destruct (folder_children f) as [sub|]; [|reflexivity].
    destruct (sub !! i); reflexivity.
  - cbn [app]. destruct (folder_children f) as [sub|]; [|reflexivity].
    apply (IH sub). discriminate.
Qed.

Lemma box_at_snoc (path : list nat) (i : nat) :
  forall boxes : list (string * Box),
    path <> [] ->
    box_at (path ++ [i]) boxes =
    match box_at path boxes with
    | Some entry =>
        match box_children (snd entry) with Some sub => sub !! i | None => None end
    | None => None
    end.
Proof.
  induction path as [|j rest IH]; intros boxes Hne; [congruence|].
  cbn [app box_at]. destruct (boxes !! j) as [entry|]; [|reflexivity].
  destruct rest as [|k rest].
  - cbn. destruct (box_children (snd entry)) as [sub|]; [|reflexivity].
    destruct (sub !! i); reflexivity.
  - cbn [app]. destruct (box_children (snd entry)) as [sub|]; [|reflexivity].
    apply (IH sub). discriminate.
Qed.

Lemma truthy_nonempty (s : string) : s <> "" -> truthy s = true.
Proof. destruct s; [congruence | reflexivity]. Qed.

(** Top-level folders carry their leaf name. *)
Lemma parseBoxes_top_level (boxes : list (string * Box)) (i : nat) (leaf : string) (b : Box) :
  box_at [i] boxes = Some (leaf, b) ->
  exists f, folder_at [i] (parseBoxes boxes "") = Some f /\ folder_name f = leaf.
Proof.
  cbn. rewrite parseBoxes_lookup. destruct (boxes !! i) as [entry|]; [|discriminate].
  intros [= ->]. eexists. split; [reflexivity|]. now rewrite parseBox_name.
Qed.

(** C8, as stated, fails: the separator is the delimiter of the box that is
    being named, that is the child's, not the one of the folder it lies in.
    Below ["INBOX"] (delimiter ["/"]) the box ["Sub"] (delimiter ["."]) is
    named ["INBOX.Sub"]. *)
Lemma C8_counterexample :
  let boxes := [("INBOX", mkBox "/" None (Some [("Sub", mkBox "." None None)]))] in
  exists parent child,
    folder_at [0%nat] (parseBoxes boxes "") = Some parent /\
    folder_at [0%nat; 0%nat] (parseBoxes boxes "") = Some child /\
    folder_delimiter parent = "/" /\
    folder_delimiter child = "." /\
    folder_name child = "INBOX.Sub" /\
    spec_child_name parent "Sub" = "INBOX/Sub" /\
    folder_name child <> spec_child_name parent "Sub".
Proof.
  cbv zeta. do 2 eexists.
  split; [reflexivity|]. split; [reflexivity|].
  repeat split; discriminate.
Qed.

(** C8 (amended). For every server-supplied folder tree and at every
    depth, a child folder that lies in a folder with a non-empty full path
    is named by that path, then the delimiter of the child box itself, then
    the child's leaf name; the produced folder also records that
    delimiter. *)
Theorem C8_child_name_uses_own_delimiter
    (boxes : list (string * Box)) (path : list nat) (i : nat)
    (parent : Folder) (leaf : string) (b : Box) :
  folder_at path (parseBoxes boxes "") = Some parent ->
  box_at (path ++ [i]) boxes = Some (leaf, b) ->
  folder_name parent <> "" ->
  exists child,
    folder_at (path ++ [i]) (parseBoxes boxes "") = Some child /\
    folder_name child = folder_name parent +:+ box_delimiter b +:+ leaf /\
    folder_delimiter child = box_delimiter b.
Proof.
  intros Hparent Hbox Hname.
  assert (Hne : path <> []) by (intros ->; discriminate Hparent).
  rewrite folder_at_snoc, Hparent by exact Hne.
  rewrite box_at_snoc in Hbox by exact Hne.
  destruct (folder_at_parseBoxes _ _ _ _ Hparent) as (pname & pb & pp & Hpb & ->).
  rewrite Hpb in Hbox. cbn [snd] in Hbox.
  rewrite parseBox_children.
  destruct (box_children pb) as [sub|]; [|discriminate]. cbn.
  rewrite parseBoxes_lookup, Hbox. cbn.
  eexists. split; [reflexivity|].
  rewrite parseBox_name, parseBox_delimiter, (truthy_nonempty _ Hname). auto.
Qed.

Lemma C8_witness :
  let boxes :=
    [("INBOX", mkBox "/" None
        (Some [("Work", mkBox "/" None (Some [("2024", mkBox "." None None)]))]))] in
  exists child,
    folder_at [0%nat; 0%nat; 0%nat] (parseBoxes boxes "") = Some child /\
    folder_name child = "INBOX/Work.2024" /\
    folder_delimiter child = ".".
Proof.
  cbv zeta.
  apply (C8_child_name_uses_own_delimiter
           [("INBOX", mkBox "/" None
               (Some [("Work", mkBox "/" None (Some [("2024", mkBox "." None None)]))]))]
           [0%nat; 0%nat] 0%nat
           (mkFolder "INBOX/Work" "/" [] (Some [mkFolder "INBOX/Work.2024" "." [] None]))
           "2024" (mkBox "." None None)).
  - reflexivity.
  - reflexivity.
  - simpl. discriminate.
Defined.

(** ** Outbound composer *)

Lemma append_cons (a : ascii) (p rest : string) :
  String a p +:+ rest = String a (p +:+ rest).
Proof. reflexivity. Qed.

Lemma startsWith_spec (s p : string) :
  startsWith s p = true <-> exists rest, s = p +:+ rest.
Proof.
  unfold startsWith. revert s.
  induction p as [|a p IH]; intros s.
  - split; [eauto | intros _; destruct s; reflexivity].
  - destruct s as [|b s]; cbn [String.prefix].
    + split; [discriminate | intros [rest H]; rewrite append_cons in H; discriminate].
    + destruct (ascii_dec a b) as [->|Hab].
      * split.
        -- intros H. apply IH in H as [rest ->]. eauto.
        -- intros [rest H]. rewrite append_cons in H. apply IH. exists rest. congruence.
      * split; [discriminate | intros [rest H]; rewrite append_cons in H; congruence].
Qed.

Lemma reply_subject_idempotent (s : string) :
  reply_subject (reply_subject s) = reply_subject s.
Proof.
  unfold reply_subject at 2 3. destruct (startsWith s "Re: ") eqn:E.
  - unfold reply_subject. now rewrite E.
  - unfold reply_subject.
    assert (H : startsWith ("Re: " +:+ s) "Re: " = true)
      by (apply startsWith_spec; eauto).
    now rewrite H.
Qed.

Lemma forward_subject_idempotent (s : string) :
  forward_subject (forward_subject s) = forward_subject s.
Proof.
  unfold forward_subject at 2 3. destruct (startsWith s "Fwd: ") eqn:E.
  - unfold forward_subject. now rewrite E.
  - unfold forward_subject.
    assert (H : startsWith ("Fwd: " +:+ s) "Fwd: " = true)
      by (apply startsWith_spec; eauto).
    now rewrite H.
Qed.

Lemma filter_not_user_spec (user addr : string) (to : list string) :
  addr ∈ List.filter (fun a => negb (String.eqb a user)) to <->
  addr ∈ to /\ addr <> user.
Proof.
  rewrite !list_elem_of_In, List.filter_In.
  destruct (String.eqb_spec addr user); cbn; intuition congruence.
Qed.

(** C6, as stated, fails: recipients are not de-duplicated.  When the
    sender of the original is also among its recipients, a reply to all
    lists the address twice. *)
Lemma C6_counterexample :
  let original :=
    mkEmailContent 7 (DateMs 0) "ann@example.org"
      ["ann@example.org"; "me@example.org"; "bob@example.org"]
      "Lunch" "<m1@example.org>" None (Some "hello") None in
  let composer :=
    replyComposer (fun s : string => s) Mock.account_A original (Some "ok") None true None in
  ec_to composer = ["ann@example.org"; "ann@example.org"; "bob@example.org"] /\
  ~ NoDup (ec_to composer).
Proof.
  cbv zeta. split; [reflexivity|].
  cbn. rewrite NoDup_cons. intros [Hnotin _]. apply Hnotin. constructor.
Qed.

(** C6 (amended). For every reply composition: with [replyAll = false] the
    recipient list is exactly the original sender; with [replyAll = true]
    it is the original sender followed, in their original order, by every
    original recipient other than the acting account's own address.
    Nothing is de-duplicated: the list is free of duplicates exactly when
    those other recipients are and the sender is not one of them. *)
Theorem C6_reply_recipients {Buffer : Type} (decode : string -> Buffer)
    (account : ImapAccount) (original : EmailContent)
    (text html : option string) (attachments : option (list AttachmentInput)) :
  let others :=
    List.filter (fun addr => negb (String.eqb addr (acc_user account))) (em_to original) in
  let recipients :=
    ec_to (replyComposer decode account original text html true attachments) in
  ec_to (replyComposer decode account original text html false attachments)
    = [em_from original] /\
  recipients = em_from original :: others /\
  (forall addr, addr ∈ others <-> addr ∈ em_to original /\ addr <> acc_user account) /\
  (NoDup recipients <-> (em_from original ∉ others) /\ NoDup others).
Proof.
  cbv zeta. split; [reflexivity|]. split; [reflexivity|].
  split; [intros addr; apply filter_not_user_spec|].
  cbn. apply NoDup_cons.
Qed.

(** C7. Subject prefixing is idempotent: a reply to a message whose subject
    already starts with ["Re: "] keeps the subject, a forward of a message
    whose subject already starts with ["Fwd: "] keeps the subject, any
    other subject gets the prefix once, and prefixing an already prefixed
    subject again changes nothing.  The test is an exact, case-sensitive
    prefix match. *)
Theorem C7_subject_prefix_idempotent {Buffer : Type} (decode : string -> Buffer)
    (toLocaleString : Date -> string)
    (account : ImapAccount) (original : EmailContent)
    (text html : option string) (replyAll : bool)
    (attachments : option (list AttachmentInput)) (to : list string) :
  let subject := em_subject original in
  let reply := replyComposer decode account original text html replyAll attachments in
  let forward := forwardComposer (Buffer := Buffer) toLocaleString account original to text in
  ((exists rest, subject = "Re: " +:+ rest) -> ec_subject reply = subject) /\
  ((exists rest, subject = "Fwd: " +:+ rest) -> ec_subject forward = subject) /\
  (~ (exists rest, subject = "Re: " +:+ rest) -> ec_subject reply = "Re: " +:+ subject) /\
  (~ (exists rest, subject = "Fwd: " +:+ rest) -> ec_subject forward = "Fwd: " +:+ subject) /\
  reply_subject (ec_subject reply) = ec_subject reply /\
  forward_subject (ec_subject forward) = ec_subject forward.
Proof.
  cbv zeta. cbn [ec_subject replyComposer forwardComposer].
  repeat split.
  - intros H. apply startsWith_spec in H. unfold reply_subject. now rewrite H.
  - intros H. apply startsWith_spec in H. unfold forward_subject. now rewrite H.
  - intros H. unfold reply_subject.
    destruct (startsWith (em_subject original) "Re: ") eqn:E; [|reflexivity].
    apply startsWith_spec in E. contradiction.
  - intros H. unfold forward_subject.
    destruct (startsWith (em_subject original) "Fwd: ") eqn:E; [|reflexivity].
    apply startsWith_spec in E. contradiction.
  - apply reply_subject_idempotent.
  - apply forward_subject_idempotent.
Qed.

Lemma C7_witness :
  let original :=
    mkEmailContent 7 (DateMs 0) "ann@example.org" ["me@example.org"]
      "Re: Lunch" "<m1@example.org>" None (Some "hello") None in
  ec_subject (replyComposer (fun s : string => s) Mock.account_A original
                (Some "ok") None false None) = "Re: Lunch" /\
  ec_subject (forwardComposer (Buffer := string) (fun _ => "1/1/1970") Mock.account_A
                original ["bob@example.org"] None) = "Fwd: Re: Lunch".
Proof.
  cbv zeta.
  pose proof (C7_subject_prefix_idempotent (fun s : string => s) (fun _ => "1/1/1970")
    Mock.account_A
    (mkEmailContent 7 (DateMs 0) "ann@example.org" ["me@example.org"]
       "Re: Lunch" "<m1@example.org>" None (Some "hello") None)
    (Some "ok") None false None ["bob@example.org"]) as H.
  cbv zeta in H. destruct H as (Hre & _ & _ & Hfwd & _).
  split.
  - apply Hre. exists "Lunch". reflexivity.
  - apply Hfwd. intros [rest Hrest]. rewrite append_cons in Hrest. discriminate Hrest.
Defined.

(** ** Session pool and mailbox operations *)

Section ServiceFacts.
Context {Conn Net : Type} `{!NodeImap Conn Net}.

Implicit Types (s : State Conn Net) (imap : Conn) (uid : UidArg).

Lemma getConnection_registered s accountId imap :
  activeConnections s !! accountId = Some imap ->
  getConnection accountId s = (inr accountId, s).
Proof. intros H. unfold getConnection. now rewrite H. Qed.

Lemma command_registered s connection call run imap :
  activeConnections s !! connection = Some imap ->
  command connection call run s =
  (to_result (fst (run imap)),
   mkState (<[connection := snd (run imap)]> (activeConnections s)) (net s)
           (trace s ++ [mkEvent call (fst (run imap))])).
Proof.
  intros H. unfold command. rewrite H. now destruct (run imap).
Qed.

Lemma calls_of_app {A} (m : M Conn Net A) s evs :
  trace (snd (m s)) = trace s ++ evs -> calls_of m s = evs.
Proof. intros H. unfold calls_of. rewrite H. apply drop_app_length. Qed.

(** What a mutation does, call by call, on an account with a session:
    the folder is selected; if that fails the call fails with that error;
    otherwise the mutation's command is issued with the uid argument as
    given, and for [Delete] an expunge follows if the flag command went
    through.  The outcome is the answer to the last call. *)
Lemma mutate_run (op : Mutation) accountId folder uid s imap :
  activeConnections s !! accountId = Some imap ->
  let opened := imap_openBox folder false imap in
  let first := run_first_command op uid (snd opened) in
  let ev0 := mkEvent (CallOpenBox accountId folder false) (fst opened) in
  let ev1 := mkEvent (first_command op accountId uid) (fst first) in
  let ev2 := mkEvent (CallExpunge accountId) (fst (imap_expunge (snd first))) in
  let r := mutate op accountId folder uid s in
  (exists e, fst opened = Some e /\ fst r = inl e /\
             trace (snd r) = trace s ++ [ev0]) \/
  (fst opened = None /\
   (((op <> Delete \/ fst first <> None) /\
     fst r = to_result (fst first) /\
     trace (snd r) = trace s ++ [ev0; ev1]) \/
    (op = Delete /\ fst first = None /\
     fst r = to_result (ev_answer ev2) /\
     trace (snd r) = trace s ++ [ev0; ev1; ev2]))).
Proof.
  intros Hreg. cbv zeta.
  assert (Hsel : selectFolder accountId folder s =
    (to_result (fst (imap_openBox folder false imap)),
     mkState (<[accountId := snd (imap_openBox folder false imap)]> (activeConnections s))
             (net s)
             (trace s ++ [mkEvent (CallOpenBox accountId folder false)
                                  (fst (imap_openBox folder false imap))]))).
  { unfold selectFolder, bind. rewrite (getConnection_registered _ _ _ Hreg).
    now apply command_registered. }
  destruct (imap_openBox folder false imap) as [[e|] imap0] eqn:Hopen; cbn [fst snd] in *.
  - left. exists e. split; [reflexivity|].
    destruct op; cbn [mutate]; unfold markAsRead, markAsUnread, deleteEmail, moveEmail, bind;
      rewrite Hsel; cbn; auto.
  - right. split; [reflexivity|].
    set (s0 := mkState _ _ _) in Hsel.
    assert (Hreg0 : activeConnections s0 !! accountId = Some imap0)
      by (subst s0; cbn; apply lookup_insert_eq).
    destruct op; cbn [mutate run_first_command first_command];
      unfold markAsRead, markAsUnread, deleteEmail, moveEmail, bind;
      rewrite Hsel; cbn [to_result];
      rewrite (getConnection_registered _ _ _ Hreg0);
      rewrite (command_registered _ _ _ _ _ Hreg0).
    + left. split; [left; discriminate|]. subst s0. cbn. rewrite <- app_assoc. auto.
    + left. split; [left; discriminate|]. subst s0. cbn. rewrite <- app_assoc. auto.
    + destruct (imap_addFlags uid "\Deleted" imap0) as [[e1|] imap1] eqn:Hflag;
        cbn [fst snd to_result].
      * left. split; [right; discriminate|]. subst s0. cbn. rewrite <- app_assoc. auto.
      * right. split; [reflexivity|]. split; [reflexivity|].
        erewrite command_registered by (cbn; apply lookup_insert_eq).
        subst s0. cbn. rewrite <- !app_assoc. auto.
    + left. split; [left; discriminate|]. subst s0. cbn. rewrite <- app_assoc. auto.
Qed.

Lemma mutate_not_registered (op : Mutation) accountId folder uid s :
  activeConnections s !! accountId = None ->
  mutate op accountId folder uid s = (inl (no_active_connection accountId), s).
Proof.
  intros H.
  destruct op; cbn [mutate];
    unfold markAsRead, markAsUnread, deleteEmail, moveEmail, selectFolder, bind, getConnection;
    now rewrite H.
Qed.

Lemma bind_ret_outcome {A B} (m : M Conn Net A) (b : B) s :
  snd (bind m (fun _ => ret b) s) = snd (m s) /\
  (forall e, fst (bind m (fun _ => ret b) s) = inl e <-> fst (m s) = inl e) /\
  (forall a, fst (m s) = inr a -> fst (bind m (fun _ => ret b) s) = inr b).
Proof.
  unfold bind, ret. destruct (m s) as [[e|a] s']; cbn.
  all: repeat split; intros; congruence.
Qed.

(** A tool call with a resolved uid argument is the service call followed
    by the success message. *)
Lemma mutate_tool_resolved (op : Mutation) accountId folder
    (uid : option Z) (uids : option (list Z)) (u : UidArg) s :
  uidToProcess uid uids = Some u ->
  snd (mutate_tool op accountId folder uid uids s) = snd (mutate op accountId folder u s) /\
  (forall e, fst (mutate_tool op accountId folder uid uids s) = inl e <->
             fst (mutate op accountId folder u s) = inl e) /\
  (fst (mutate op accountId folder u s) = inr tt ->
   exists msg, fst (mutate_tool op accountId folder uid uids s) = inr (mkToolResult true msg)).
Proof.
  intros Hu.
  destruct op; cbn [mutate_tool mutate];
    unfold imap_mark_as_read, imap_mark_as_unread, imap_delete_email, imap_move_email;
    cbn [default]; rewrite Hu.
  all: match goal with |- context [bind ?m (fun _ => ret ?b)] =>
         destruct (bind_ret_outcome m b s) as (Hs & He & Hok) end.
  all: split; [exact Hs|]; split; [exact He|]; intros H; eexists; apply (Hok tt H).
Qed.

Lemma filter_none {A} (P : A -> Prop) `{!forall x, Decision (P x)} (l : list A) :
  (forall x, x ∈ l -> ~ P x) -> filter P l = [].
Proof.
  induction l as [|x l IH]; intros Hall; [reflexivity|].
  rewrite filter_cons_False by (apply Hall; left).
  apply IH. intros y Hy. apply Hall. now right.
Qed.

Lemma sessions_of_registered s accountId imap :
  activeConnections s !! accountId = Some imap -> sessions_of accountId s = 1%nat.
Proof.
  intros H. unfold sessions_of.
  rewrite <- (map_to_list_delete _ _ _ H).
  rewrite filter_cons_True by reflexivity.
  rewrite filter_none; [reflexivity|].
  intros [k c] Hin Hk. cbn in Hk. subst k.
  apply elem_of_map_to_list in Hin. rewrite lookup_delete_eq in Hin. discriminate.
Qed.

Lemma connect_registered (account : ImapAccount) s :
  is_Some (activeConnections s !! acc_id account) -> connect account s = (inr tt, s).
Proof. intros H. unfold connect. now rewrite bool_decide_eq_true_2. Qed.

(** A successful [connect] leaves the account registered, and it opened at
    most one connection on the way. *)
Lemma connect_success (account : ImapAccount) s s1 :
  connect account s = (inr tt, s1) ->
  is_Some (activeConnections s1 !! acc_id account) /\
  (trace s1 = trace s \/
   exists cfg, trace s1 = trace s ++ [mkEvent (CallConnect (acc_id account) cfg) None]).
Proof.
  unfold connect. case_bool_decide as Hreg.
  - intros [= <-]. auto.
  - destruct (imap_connect _ (net s)) as [[err|imap] net']; intros [= <-]; cbn.
    rewrite lookup_insert_eq. split; [eauto|]. right. eauto.
Qed.

Lemma connect_failure (account : ImapAccount) s s1 e :
  connect account s = (inl e, s1) ->
  exists cfg, trace s1 = trace s ++ [mkEvent (CallConnect (acc_id account) cfg) (Some e)].
Proof.
  unfold connect. case_bool_decide as Hreg; [discriminate|].
  destruct (imap_connect _ (net s)) as [[err|imap] net']; intros [= <- <-]; cbn. eauto.
Qed.

(** Whatever the library does, a mutation (markRead, markUnread, delete,
    move) on an account with a registered session makes no uid-membership
    check of its own: it selects the folder and, if that succeeded, issues
    the mutating command with the complete uid argument.  The call
    succeeds exactly when every library call it made was answered without
    an error, and otherwise fails with the error that answered its last
    call, passed through unchanged. *)
Lemma mutation_outcome_is_the_library_answer (op : Mutation)
    (accountId folder : string) (uid : UidArg) s imap :
  activeConnections s !! accountId = Some imap ->
  let r := mutate op accountId folder uid s in
  let evs := calls_of (mutate op accountId folder uid) s in
  let opened := fst (imap_openBox folder false imap) in
  trace (snd r) = trace s ++ evs /\
  evs !! 0%nat = Some (mkEvent (CallOpenBox accountId folder false) opened) /\
  (opened = None -> ev_call <$> evs !! 1%nat = Some (first_command op accountId uid)) /\
  (opened <> None -> length evs = 1%nat) /\
  (fst r = inr tt <-> Forall answered_ok evs) /\
  (forall e, fst r = inl e <-> ev_answer <$> last evs = Some (Some e)).
Proof.
  intros Hreg. cbv zeta.
  pose proof (mutate_run op accountId folder uid s imap Hreg) as Hrun.
  cbv zeta in Hrun.
  destruct Hrun
    as [(e & Hopen & Hr & Htr) | (Hopen & [(_ & Hr & Htr) | (_ & Hflag & Hr & Htr)])];
    rewrite (calls_of_app _ _ _ Htr), Hr; rewrite ?Hopen in *.
  - split; [exact Htr|]. split; [reflexivity|]. split; [discriminate|].
    split; [reflexivity|]. split.
    + split; [discriminate|]. intros H. apply Forall_cons in H as [H _]. discriminate H.
    + intros e'. cbn. split; congruence.
  - split; [exact Htr|]. split; [reflexivity|].
    split; [reflexivity|]. split; [congruence|].
    destruct (fst (run_first_command op uid (snd (imap_openBox folder false imap))))
      as [e1|]; cbn; split.
    + split; [discriminate|]. intros H.
      apply Forall_cons in H as [_ H]. apply Forall_cons in H as [H _]. discriminate H.
    + intros e'. split; congruence.
    + split; [intros _; repeat constructor | reflexivity].
    + intros e'. split; discriminate.
  - rewrite ?Hflag in *.
    split; [exact Htr|]. split; [reflexivity|].
    split; [reflexivity|]. split; [congruence|]. cbn [ev_answer].
    destruct (fst (imap_expunge _)) as [e2|]; cbn; split.
    + split; [discriminate|]. intros H.
      apply Forall_cons in H as [_ H]. apply Forall_cons in H as [_ H].
      apply Forall_cons in H as [H _]. discriminate H.
    + intros e'. split; congruence.
    + split; [intros _; repeat constructor | reflexivity].
    + intros e'. split; discriminate.
Qed.


(** C5. [connect] is idempotent: when a session is already registered for
    the account id it is a no-op; calling it twice in a row is the same as
    calling it once; and after a successful call, a second call leaves
    exactly one session registered for that account id, with at most one
    connection having been opened for it. *)
Theorem C5_connect_idempotent (account : ImapAccount) s :
  let twice := bind (connect account) (fun _ => connect account) in
  (is_Some (activeConnections s !! acc_id account) -> connect account s = (inr tt, s)) /\
  twice s = connect account s /\
  (fst (connect account s) = inr tt ->
   sessions_of (acc_id account) (snd (twice s)) = 1%nat /\
   (connects_for (acc_id account) (calls_of twice s) <= 1)%nat).
Proof.
  cbv zeta.
  assert (Htwice : bind (connect account) (fun _ => connect account) s = connect account s).
  { unfold bind. destruct (connect account s) as [[e|[]] s1] eqn:E; [reflexivity|].
    apply connect_registered. apply (connect_success _ _ _ E). }
  split; [apply connect_registered|]. split; [exact Htwice|].
  intros Hok. unfold calls_of. rewrite Htwice.
  destruct (connect account s) as [[e|[]] s1] eqn:E; [discriminate|]. cbn [snd].
  destruct (connect_success _ _ _ E) as [[imap Hreg] Htr].
  split; [exact (sessions_of_registered _ _ _ Hreg)|].
  destruct Htr as [-> | [cfg ->]].
  - rewrite drop_all. cbn. lia.
  - rewrite drop_app_length. etrans; [apply length_filter|]. reflexivity.
Qed.

Lemma mutate_tool_success (op : Mutation) (accountId folder : string)
    (uid : option Z) (uids : option (list Z)) (u : UidArg) s :
  uidToProcess uid uids = Some u ->
  fst (mutate op accountId folder u s) = inr tt ->
  exists what,
    fst (mutate_tool op accountId folder uid uids s)
    = inr (mkToolResult true (done_message u what)).
Proof.
  intros Hu Hok.
  destruct op; cbn [mutate_tool mutate] in *;
    unfold imap_mark_as_read, imap_mark_as_unread, imap_delete_email, imap_move_email;
    cbn [default]; rewrite Hu.
  all: match goal with
       | |- context [bind ?m (fun _ => ret (mkToolResult true (done_message ?v ?w)))] =>
           exists w; destruct (bind_ret_outcome m (mkToolResult true (done_message v w)) s)
             as (_ & _ & H)
       end.
  all: apply (H tt Hok).
Qed.

Lemma uid_required_is_not_no_session (accountId : string) :
  uid_required <> no_active_connection accountId.
Proof. intros H. apply (f_equal message) in H. cbn in H. discriminate H. Qed.

(** C9. For every mark / delete / move tool: when neither [uid] nor [uids]
    is supplied the call fails with the handler's own input error, "Either
    uid or uids parameter is required" (never the service's "No active
    connection" error), and nothing has been touched: no library call,
    same state.  When both are supplied the sequence takes precedence: the
    scalar is ignored and the tool is the service operation on the
    sequence, with its state, its failure if any, the success answer for
    that many emails otherwise, and, on a registered session whose folder
    can be selected, the mutating command issued with the sequence. *)
Theorem C9_uid_or_uids_required (op : Mutation) (accountId folder : string) s :
  mutate_tool op accountId folder None None s = (inl uid_required, s) /\
  calls_of (mutate_tool op accountId folder None None) s = [] /\
  (forall (uid : Z) (uids : list Z),
     uidToProcess (Some uid) (Some uids) = Some (Uids uids) /\
     mutate_tool op accountId folder (Some uid) (Some uids) s =
     mutate_tool op accountId folder None (Some uids) s) /\
  message uid_required = "Either uid or uids parameter is required" /\
  uid_required <> no_active_connection accountId /\
  (forall (uid : Z) (uids : list Z),
     let tool := mutate_tool op accountId folder (Some uid) (Some uids) in
     let service := mutate op accountId folder (Uids uids) in
     snd (tool s) = snd (service s) /\
     (forall e, fst (tool s) = inl e <-> fst (service s) = inl e) /\
     (fst (service s) = inr tt ->
      exists what,
        fst (tool s)
        = inr (mkToolResult true (pretty (length uids) +:+ " emails " +:+ what))) /\
     (forall imap,
        activeConnections s !! accountId = Some imap ->
        fst (imap_openBox folder false imap) = None ->
        ev_call <$> calls_of tool s !! 1%nat
        = Some (first_command op accountId (Uids uids)))).
Proof.
  split; [destruct op; reflexivity|]. split.
  { unfold calls_of.
    replace (mutate_tool op accountId folder None None s) with (@inl Error ToolResult uid_required, s)
      by (destruct op; reflexivity).
    apply drop_all. }
  split.
  { intros uid uids. split; [reflexivity|]. destruct op; reflexivity. }
  split; [reflexivity|]. split; [apply uid_required_is_not_no_session|].
  intros uid uids. cbv zeta.
  destruct (mutate_tool_resolved op accountId folder (Some uid) (Some uids) (Uids uids) s
              eq_refl) as (Hs & He & _).
  split; [exact Hs|]. split; [exact He|]. split.
  - intros Hok.
    destruct (mutate_tool_success op accountId folder (Some uid) (Some uids) (Uids uids) s
                eq_refl Hok) as [what Hw].
    exists what. exact Hw.
  - intros imap Hreg Hopen. unfold calls_of. rewrite Hs.
    pose proof (mutate_run op accountId folder (Uids uids) s imap Hreg) as Hrun.
    cbv zeta in Hrun.
    destruct Hrun as [(e & Hopen' & _) | (_ & [(_ & _ & Htr) | (_ & _ & _ & Htr)])];
      [congruence| |]; rewrite Htr, drop_app_length; reflexivity.
Qed.

(** C10. For every mark / delete / move tool called with [uids] an empty
    sequence: the required-parameter check passes, the empty sequence is
    the uid argument whatever scalar [uid] came along, and the tool does
    what the service operation does on zero target uids: same state, same
    failure if any, the success response otherwise; on a registered
    session whose folder can be selected the mutating command is issued
    with the empty sequence. *)
Theorem C10_empty_uids_is_present (op : Mutation) (accountId folder : string)
    (uid : option Z) s :
  let tool := mutate_tool op accountId folder uid (Some []) in
  let service := mutate op accountId folder (Uids []) in
  uidToProcess uid (Some []) = Some (Uids []) /\
  snd (tool s) = snd (service s) /\
  (forall e, fst (tool s) = inl e <-> fst (service s) = inl e) /\
  (fst (service s) = inr tt -> exists msg, fst (tool s) = inr (mkToolResult true msg)) /\
  (forall imap,
     activeConnections s !! accountId = Some imap ->
     fst (imap_openBox folder false imap) = None ->
     ev_call <$> calls_of tool s !! 1%nat = Some (first_command op accountId (Uids []))).
Proof.
  cbv zeta.
  destruct (mutate_tool_resolved op accountId folder uid (Some []) (Uids []) s eq_refl)
    as (Hs & He & Hok).
  split; [reflexivity|]. split; [exact Hs|]. split; [exact He|]. split; [exact Hok|].
  intros imap Hreg Hopen. unfold calls_of. rewrite Hs.
  pose proof (mutate_run op accountId folder (Uids []) s imap Hreg) as Hrun.
  cbv zeta in Hrun.
  destruct Hrun as [(e & Hopen' & _) | (_ & [(_ & _ & Htr) | (_ & _ & _ & Htr)])];
    [congruence| |]; rewrite Htr, drop_app_length; reflexivity.
Qed.

End ServiceFacts.

(** ** The operations on the reference server *)

(** C1. The batch contract (the repository's README: "Batch operations are
    atomic - if any email fails, the entire operation fails.  All UIDs in a
    batch must be valid") is broken by the code: no mutation checks that
    the uids exist, and each reports what the server answered.  On a
    server that skips unknown uids, with uid 99 absent from INBOX:
    markRead [1, 2, 99] answers "3 emails marked as read" and marks 1 and
    2; delete [1, 2, 99] answers "3 emails deleted" and removes 1 and 2;
    move [1, 99] answers success and moves 1 to Archive.  None of the calls
    fails, and none leaves the valid members untouched. *)
Theorem C1_partial_batch_reports_success :
  let read := imap_mark_as_read "A" (Some "INBOX") None (Some [1; 2; 99]%Z) Mock.ready in
  let deleted := imap_delete_email "A" (Some "INBOX") None (Some [1; 2; 99]%Z) Mock.ready in
  let moved := imap_move_email "A" "INBOX" "Archive" None (Some [1; 99]%Z) Mock.ready in
  Mock.flags_of "A" "INBOX" 99 Mock.ready = None /\
  Mock.flags_of "A" "INBOX" 1 Mock.ready = Some [] /\
  Mock.flags_of "A" "INBOX" 2 Mock.ready = Some [] /\
  Mock.flags_of "A" "Archive" 1 Mock.ready = None /\
  fst read = inr (mkToolResult true "3 emails marked as read") /\
  Mock.flags_of "A" "INBOX" 1 (snd read) = Some ["\Seen"] /\
  Mock.flags_of "A" "INBOX" 2 (snd read) = Some ["\Seen"] /\
  ev_call <$> trace (snd read) =
    [CallOpenBox "A" "INBOX" false; CallAddFlags "A" (Uids [1; 2; 99]%Z) "\Seen"] /\
  fst deleted = inr (mkToolResult true "3 emails deleted") /\
  Mock.flags_of "A" "INBOX" 1 (snd deleted) = None /\
  Mock.flags_of "A" "INBOX" 2 (snd deleted) = None /\
  Mock.flags_of "A" "INBOX" 3 (snd deleted) = Some [] /\
  fst moved = inr (mkToolResult true "2 emails moved from 'INBOX' to 'Archive'") /\
  Mock.flags_of "A" "INBOX" 1 (snd moved) = None /\
  Mock.flags_of "A" "Archive" 1 (snd moved) = Some [].
Proof. cbv zeta. repeat split; vm_compute; reflexivity. Qed.



Lemma C5_witness :
  let twice := bind (connect Mock.account_A) (fun _ => connect Mock.account_A) in
  sessions_of "A" (snd (twice Mock.disconnected)) = 1%nat /\
  (connects_for "A" (calls_of twice Mock.disconnected) <= 1)%nat.
Proof.
  cbv zeta.
  pose proof (C5_connect_idempotent Mock.account_A Mock.disconnected) as H.
  cbv zeta in H. destruct H as (_ & _ & H).
  apply H. reflexivity.
Defined.

Lemma C10_witness :
  ev_call <$> calls_of (mutate_tool MarkRead "A" "INBOX" (Some 7%Z) (Some [])) Mock.ready
                !! 1%nat
  = Some (CallAddFlags "A" (Uids []) "\Seen").
Proof.
  pose proof (C10_empty_uids_is_present MarkRead "A" "INBOX" (Some 7%Z) Mock.ready) as H.
  cbv zeta in H. destruct H as (_ & _ & _ & _ & H).
  apply (H Mock.server); reflexivity.
Defined.

Lemma C9_witness :
  let tool := mutate_tool MarkRead "A" "INBOX" (Some 7%Z) (Some [1; 2]%Z) in
  ev_call <$> calls_of tool Mock.ready !! 1%nat
    = Some (CallAddFlags "A" (Uids [1; 2]%Z) "\Seen") /\
  exists what,
    fst (tool Mock.ready) = inr (mkToolResult true ("2 emails " +:+ what)).
Proof.
  cbv zeta.
  pose proof (C9_uid_or_uids_required MarkRead "A" "INBOX" Mock.ready) as H.
  destruct H as (_ & _ & _ & _ & _ & H). specialize (H 7%Z [1; 2]%Z).
  cbv zeta in H. destruct H as (_ & _ & Hok & Hcmd).
  split; [apply (Hcmd Mock.server); reflexivity|].
  destruct Hok as [what Hw]; [reflexivity|]. exists what. exact Hw.
Defined.

(** * Further properties of the code *)

(** ** Criteria translator, continued *)

Lemma elem_of_push_string (key : string) (v : option string) (t : SearchTerm) :
  t ∈ push_string key v [] <-> exists s, v = Some s /\ s <> "" /\ t = TermStr key s.
Proof.
  unfold push_string. destruct v as [[|a s]|]; cbn.
  - rewrite elem_of_nil. split; [tauto|]. intros (s & [= <-] & Hne & _). congruence.
  - rewrite list_elem_of_singleton. split.
    + intros ->. eexists. repeat split. discriminate.
    + intros (s' & [= <-] & _ & ->). reflexivity.
  - rewrite elem_of_nil. split; [tauto|]. intros (s & H & _). discriminate.
Qed.

Lemma elem_of_push_date (key : string) (v : option Date) (t : SearchTerm) :
  t ∈ push_date key v [] <-> exists d, v = Some d /\ t = TermDate key d.
Proof.
  unfold push_date. destruct v as [d|]; cbn.
  - rewrite list_elem_of_singleton. split.
    + intros ->. eauto.
    + intros (d' & [= <-] & ->). reflexivity.
  - rewrite elem_of_nil. split; [tauto|]. intros (d & H & _). discriminate.
Qed.

Lemma elem_of_push_tristate (pos neg : string) (v : option bool) (t : SearchTerm) :
  t ∈ push_tristate pos neg v [] <->
  exists b : bool, v = Some b /\ t = TermKey (if b then pos else neg).
Proof.
  unfold push_tristate. destruct v as [b|]; cbn.
  - rewrite list_elem_of_singleton. split.
    + intros ->. eauto.
    + intros (b' & [= <-] & ->). reflexivity.
  - rewrite elem_of_nil. split; [tauto|]. intros (b & H & _). discriminate.
Qed.

(** The translator's result has one term per filtering predicate, and one
    term, the sentinel, when there is none. *)
Lemma buildSearchCriteria_length (c : SearchCriteria) :
  length (buildSearchCriteria c) = Nat.max 1 (predicates_filtering c).
Proof.
  rewrite buildSearchCriteria_unfold.
  destruct (raw_terms_fields c) as [_ Hlen]. cbv zeta in *.
  set (raw := _ ++ _) in *. rewrite Hlen.
  destruct (Nat.ltb_spec 0 (predicates_filtering c)); cbn [length]; lia.
Qed.

(** Membership in the result, sentinel apart, is membership in one of the
    ten pushes. *)
Lemma elem_of_buildSearchCriteria (c : SearchCriteria) (t : SearchTerm) :
  t <> TermKey "ALL" ->
  t ∈ buildSearchCriteria c <->
  t ∈ push_string "FROM" (sc_from c) [] \/ t ∈ push_string "TO" (sc_to c) [] \/
  t ∈ push_string "SUBJECT" (sc_subject c) [] \/ t ∈ push_string "BODY" (sc_body c) [] \/
  t ∈ push_date "SINCE" (sc_since c) [] \/ t ∈ push_date "BEFORE" (sc_before c) [] \/
  t ∈ push_tristate "SEEN" "UNSEEN" (sc_seen c) [] \/
  t ∈ push_tristate "FLAGGED" "UNFLAGGED" (sc_flagged c) [] \/
  t ∈ push_tristate "ANSWERED" "UNANSWERED" (sc_answered c) [] \/
  t ∈ push_tristate "DRAFT" "UNDRAFT" (sc_draft c) [].
Proof.
  intros Hall. rewrite buildSearchCriteria_unfold. cbv zeta.
  rewrite <- !elem_of_app. set (raw := _ ++ _).
  destruct raw as [|t0 raw']; cbn [length Nat.ltb Nat.leb]; [|reflexivity].
  rewrite list_elem_of_singleton, elem_of_nil. tauto.
Qed.

Lemma sentinel_not_pushed (c : SearchCriteria) :
  (0 < predicates_filtering c)%nat -> TermKey "ALL" ∉ buildSearchCriteria c.
Proof.
  intros Hpos Hin. rewrite buildSearchCriteria_unfold in Hin.
  destruct (raw_terms_fields c) as [Hfields Hlen]. cbv zeta in *.
  set (raw := _ ++ _) in *.
  rewrite Hlen in Hin. destruct (Nat.ltb_spec 0 (predicates_filtering c)); [|lia].
  assert (Hl : length (omap term_field raw) = length raw)
    by (rewrite Hfields, Hlen; reflexivity).
  apply omap_total in Hl. rewrite Forall_forall in Hl.
  destruct (Hl _ Hin) as [f Hf]. discriminate Hf.
Qed.

(** X1. The array handed to [connection.search] is never empty, and the
    sentinel ['ALL'] never stands beside another term: if it occurs, it is
    the whole array and no predicate filters. *)
Theorem X1_search_array_never_empty (c : SearchCriteria) :
  buildSearchCriteria c <> [] /\
  (TermKey "ALL" ∈ buildSearchCriteria c <-> buildSearchCriteria c = [TermKey "ALL"]) /\
  (buildSearchCriteria c = [TermKey "ALL"] <-> predicates_filtering c = 0%nat).
Proof.
  pose proof (buildSearchCriteria_length c) as Hlen.
  assert (Hiff : buildSearchCriteria c = [TermKey "ALL"] <-> predicates_filtering c = 0%nat).
  { split.
    - intros Heq. destruct (predicates_filtering c) as [|n] eqn:E; [reflexivity|].
      exfalso. apply (sentinel_not_pushed c); [lia|]. rewrite Heq. left.
    - intros Hz. rewrite buildSearchCriteria_unfold.
      destruct (raw_terms_fields c) as [_ Hl]. cbv zeta in *.
      set (raw := _ ++ _) in *. now rewrite Hl, Hz. }
  split; [|split; [|exact Hiff]].
  - intros Heq. rewrite Heq in Hlen. cbn in Hlen. lia.
  - split; [|intros ->; left].
    intros Hin. apply Hiff.
    destruct (predicates_filtering c) as [|n] eqn:E; [reflexivity|].
    exfalso. apply (sentinel_not_pushed c); [lia | exact Hin].
Qed.

(** Which pushes a term of each shape can come from. *)
Lemma TermStr_pushed (c : SearchCriteria) (key value : string) :
  TermStr key value ∈ buildSearchCriteria c <->
  value <> "" /\
  ((key = "FROM" /\ sc_from c = Some value) \/
   (key = "TO" /\ sc_to c = Some value) \/
   (key = "SUBJECT" /\ sc_subject c = Some value) \/
   (key = "BODY" /\ sc_body c = Some value)).
Proof.
  rewrite elem_of_buildSearchCriteria by discriminate.
  rewrite !elem_of_push_string, !elem_of_push_date, !elem_of_push_tristate.
  split.
  - intros [H|[H|[H|[H|[H|[H|[H|[H|[H|H]]]]]]]]];
      try (destruct H as (? & _ & [=]); fail);
      destruct H as (s & Hs & Hne & [= -> ->]); tauto.
  - intros (Hne & [[-> H]|[[-> H]|[[-> H]|[-> H]]]]).
    + left. eauto.
    + right; left. eauto.
    + do 2 right; left. eauto.
    + do 3 right; left. eauto.
Qed.

Lemma TermDate_pushed (c : SearchCriteria) (key : string) (d : Date) :
  TermDate key d ∈ buildSearchCriteria c <->
  (key = "SINCE" /\ sc_since c = Some d) \/
  (key = "BEFORE" /\ sc_before c = Some d).
Proof.
  rewrite elem_of_buildSearchCriteria by discriminate.
  rewrite !elem_of_push_string, !elem_of_push_date, !elem_of_push_tristate.
  split.
  - intros [H|[H|[H|[H|[H|[H|[H|[H|[H|H]]]]]]]]];
      try (destruct H as (? & _ & _ & [=]); fail);
      try (destruct H as (? & _ & [=]); fail);
      destruct H as (d' & Hd & [= -> ->]); tauto.
  - intros [[-> H]|[-> H]].
    + do 4 right; left. eauto.
    + do 5 right; left. eauto.
Qed.

Lemma TermKey_pushed (c : SearchCriteria) (key : string) :
  key <> "ALL" ->
  TermKey key ∈ buildSearchCriteria c <->
  (key = "SEEN" /\ sc_seen c = Some true) \/
  (key = "UNSEEN" /\ sc_seen c = Some false) \/
  (key = "FLAGGED" /\ sc_flagged c = Some true) \/
  (key = "UNFLAGGED" /\ sc_flagged c = Some false) \/
  (key = "ANSWERED" /\ sc_answered c = Some true) \/
  (key = "UNANSWERED" /\ sc_answered c = Some false) \/
  (key = "DRAFT" /\ sc_draft c = Some true) \/
  (key = "UNDRAFT" /\ sc_draft c = Some false).
Proof.
  intros Hall. rewrite elem_of_buildSearchCriteria by congruence.
  rewrite !elem_of_push_string, !elem_of_push_date, !elem_of_push_tristate.
  split.
  - intros [H|[H|[H|[H|[H|[H|H]]]]]]; try (destruct H as (? & _ & _ & [=]); fail);
      try (destruct H as (? & _ & [=]); fail).
    destruct H as [([|] & Hv & [= ->])|[([|] & Hv & [= ->])|[([|] & Hv & [= ->])|([|] & Hv & [= ->])]]];
      tauto.
  - intros [[-> H]|[[-> H]|[[-> H]|[[-> H]|[[-> H]|[[-> H]|[[-> H]|[-> H]]]]]]]].
    + do 6 right; left. exists true. auto.
    + do 6 right; left. exists false. auto.
    + do 7 right; left. exists true. auto.
    + do 7 right; left. exists false. auto.
    + do 8 right; left. exists true. auto.
    + do 8 right; left. exists false. auto.
    + do 9 right. exists true. auto.
    + do 9 right. exists false. auto.
Qed.

(** X2. The substring and date predicates are carried into the search
    terms verbatim under their IMAP keyword: a [[key, value]] pair is in the
    result exactly when the field of that keyword holds that value (and,
    for a substring predicate, the value is not the empty string). *)
Theorem X2_values_carried_verbatim (c : SearchCriteria) :
  (forall key value,
     TermStr key value ∈ buildSearchCriteria c <->
     value <> "" /\
     ((key = "FROM" /\ sc_from c = Some value) \/
      (key = "TO" /\ sc_to c = Some value) \/
      (key = "SUBJECT" /\ sc_subject c = Some value) \/
      (key = "BODY" /\ sc_body c = Some value))) /\
  (forall key d,
     TermDate key d ∈ buildSearchCriteria c <->
     (key = "SINCE" /\ sc_since c = Some d) \/
     (key = "BEFORE" /\ sc_before c = Some d)).
Proof. split; intros; [apply TermStr_pushed | apply TermDate_pushed]. Qed.

(** X3. Tri-state predicates keep their polarity: the positive keyword is
    in the result exactly when the predicate is [true], the negative one
    exactly when it is [false], and neither when it is unset. *)
Theorem X3_tristate_polarity (c : SearchCriteria) :
  (TermKey "SEEN" ∈ buildSearchCriteria c <-> sc_seen c = Some true) /\
  (TermKey "UNSEEN" ∈ buildSearchCriteria c <-> sc_seen c = Some false) /\
  (TermKey "FLAGGED" ∈ buildSearchCriteria c <-> sc_flagged c = Some true) /\
  (TermKey "UNFLAGGED" ∈ buildSearchCriteria c <-> sc_flagged c = Some false) /\
  (TermKey "ANSWERED" ∈ buildSearchCriteria c <-> sc_answered c = Some true) /\
  (TermKey "UNANSWERED" ∈ buildSearchCriteria c <-> sc_answered c = Some false) /\
  (TermKey "DRAFT" ∈ buildSearchCriteria c <-> sc_draft c = Some true) /\
  (TermKey "UNDRAFT" ∈ buildSearchCriteria c <-> sc_draft c = Some false).
Proof.
  repeat split; try (intros H; apply TermKey_pushed in H; [|discriminate];
                     keyword_cases H; assumption).
  all: intros H; apply TermKey_pushed; [discriminate|]; tauto.
Qed.

Lemma when_truthy_is_set (x : option string) :
  bool_decide (is_Some (when_truthy x)) = from_option truthy false (when_truthy x).
Proof. destruct x as [[|a s]|]; reflexivity. Qed.

(** X4. On the path of the search tool the translator meets no empty
    substring predicate: the handler drops empty strings itself.  So for
    the criteria the handler builds, the number of terms is the number of
    predicates set (one term, the sentinel, when none is set), and no
    ANSWERED, UNANSWERED, DRAFT or UNDRAFT term is ever produced. *)
Theorem X4_search_tool_terms (newDate : string -> Date) (args : SearchArgs) :
  let c := search_tool_criteria newDate args in
  length (buildSearchCriteria c) = Nat.max 1 (predicates_set c) /\
  (TermKey "ANSWERED" ∉ buildSearchCriteria c) /\
  (TermKey "UNANSWERED" ∉ buildSearchCriteria c) /\
  (TermKey "DRAFT" ∉ buildSearchCriteria c) /\
  (TermKey "UNDRAFT" ∉ buildSearchCriteria c).
Proof.
  cbv zeta. split.
  - rewrite buildSearchCriteria_length. f_equal.
    unfold predicates_filtering, predicates_set. f_equal.
    apply list_filter_iff. intros f.
    destruct f; cbn [filters is_set search_tool_criteria sc_from sc_to sc_subject sc_body];
      rewrite ?when_truthy_is_set; reflexivity.
  - repeat split; intros H; apply TermKey_pushed in H; try discriminate;
      cbn [search_tool_criteria sc_answered sc_draft] in H;
      keyword_cases H; discriminate H.
Qed.

(** X22. The search tool turns a non-empty [since] (or [before]) string
    into a date term whatever [new Date] makes of it, an invalid date
    included, and drops an empty string: no date check stands between the
    tool input and the protocol term. *)
Theorem X22_search_tool_dates (newDate : string -> Date) (args : SearchArgs) :
  let terms := buildSearchCriteria (search_tool_criteria newDate args) in
  (forall text, sa_since args = Some text -> text <> "" ->
     TermDate "SINCE" (newDate text) ∈ terms) /\
  (forall text, sa_before args = Some text -> text <> "" ->
     TermDate "BEFORE" (newDate text) ∈ terms) /\
  (sa_since args = None \/ sa_since args = Some "" ->
     forall d, TermDate "SINCE" d ∉ terms) /\
  (sa_before args = None \/ sa_before args = Some "" ->
     forall d, TermDate "BEFORE" d ∉ terms).
Proof.
  cbv zeta. repeat split.
  - intros text Hs Hne. apply TermDate_pushed. left. split; [reflexivity|].
    unfold search_tool_criteria. cbn [sc_since]. rewrite Hs.
    destruct text; [congruence | reflexivity].
  - intros text Hs Hne. apply TermDate_pushed. right. split; [reflexivity|].
    unfold search_tool_criteria. cbn [sc_before]. rewrite Hs.
    destruct text; [congruence | reflexivity].
  - intros Hs d Hin. apply TermDate_pushed in Hin.
    unfold search_tool_criteria in Hin. cbn [sc_since sc_before] in Hin.
    destruct Hin as [[_ Hin]|[[=] _]].
    destruct Hs as [Hs|Hs]; rewrite Hs in Hin; discriminate Hin.
  - intros Hs d Hin. apply TermDate_pushed in Hin.
    unfold search_tool_criteria in Hin. cbn [sc_since sc_before] in Hin.
    destruct Hin as [[[=] _]|[_ Hin]].
    destruct Hs as [Hs|Hs]; rewrite Hs in Hin; discriminate Hin.
Qed.

Lemma X22_witness :
  TermDate "SINCE" InvalidDate ∈
    buildSearchCriteria
      (search_tool_criteria (fun _ => InvalidDate)
         (mkSearchArgs None None None None (Some "yesterday") None None None)).
Proof.
  pose proof (X22_search_tool_dates (fun _ => InvalidDate)
    (mkSearchArgs None None None None (Some "yesterday") None None None)) as H.
  cbv zeta in H. destruct H as (H & _).
  apply (H "yesterday"); [reflexivity | discriminate].
Defined.

(** ** Folder tree, continued *)

Lemma append_assoc (a b c : string) : (a +:+ b) +:+ c = a +:+ b +:+ c.
Proof.
  induction a as [|x a IH]; [reflexivity|].
  rewrite !append_cons. now rewrite IH.
Qed.

Lemma truthy_append (a b : string) : truthy a = true -> truthy (a +:+ b) = true.
Proof. destruct a; [discriminate | reflexivity]. Qed.

(** The folder at a position is the parse of the box at that position. *)
Lemma folder_at_of_box (path : list nat) :
  forall (boxes : list (string * Box)) (parentPath : string),
    match box_at path boxes with
    | Some (leaf, b) =>
        exists parentPath',
          folder_at path (parseBoxes boxes parentPath) = Some (parseBox parentPath' leaf b)
    | None => folder_at path (parseBoxes boxes parentPath) = None
    end.
Proof.
  induction path as [|i rest IH]; intros boxes parentPath; [reflexivity|].
  cbn [box_at folder_at]. rewrite parseBoxes_lookup.
  destruct (boxes !! i) as [[leaf b]|]; cbn [fmap option_fmap option_map]; [|reflexivity].
  destruct rest as [|j rest]; [eauto|].
  cbn [fst snd]. rewrite parseBox_children.
  destruct (box_children b) as [sub|]; cbn [fmap option_fmap option_map]; [|reflexivity].
  apply IH.
Qed.

(** X5. [parseBoxes] keeps the shape of the tree and copies what it does
    not compute: there is a folder at a position exactly when there is a
    box, one folder per box; the folder has the box's delimiter, its
    attributes (the empty list when the box has none), children exactly
    when the box has a [children] object, as many as that has entries, and
    a name that ends in the box's leaf name. *)
Theorem X5_tree_shape_preserved (boxes : list (string * Box)) (path : list nat) :
  length (parseBoxes boxes "") = length boxes /\
  match box_at path boxes with
  | Some (leaf, b) =>
      exists f,
        folder_at path (parseBoxes boxes "") = Some f /\
        folder_delimiter f = box_delimiter b /\
        folder_attributes f = default [] (box_attribs b) /\
        length <$> folder_children f = length <$> box_children b /\
        exists front, folder_name f = front +:+ leaf
  | None => folder_at path (parseBoxes boxes "") = None
  end.
Proof.
  split; [apply length_map|].
  pose proof (folder_at_of_box path boxes "") as H.
  destruct (box_at path boxes) as [[leaf b]|]; [|exact H].
  destruct H as [pp H]. eexists. split; [exact H|].
  split; [apply parseBox_delimiter|].
  split; [destruct b; reflexivity|]. split.
  - rewrite parseBox_children. destruct (box_children b) as [sub|]; [|reflexivity].
    cbn. f_equal. apply length_map.
  - rewrite parseBox_name. destruct (truthy pp).
    + exists (pp +:+ box_delimiter b). now rewrite append_assoc.
    + exists "". reflexivity.
Qed.

Lemma entries_at_nonempty (path : list nat) (boxes : list (string * Box))
    (entries : list (string * Box)) :
  path <> [] -> entries_at path boxes = Some entries -> entries <> [].
Proof.
  destruct path as [|i rest]; [congruence|]. intros _. cbn [entries_at].
  destruct (boxes !! i) as [entry|]; [|discriminate].
  destruct rest as [|j rest]; [intros [= <-]; discriminate|].
  destruct (box_children (snd entry)) as [sub|]; [|discriminate].
  destruct (entries_at (j :: rest) sub); cbn; [intros [= <-]; discriminate | discriminate].
Qed.

Lemma join_cons (sep x : string) (l : list string) :
  l <> [] -> join sep (x :: l) = x +:+ sep +:+ join sep l.
Proof. destruct l; [congruence | reflexivity]. Qed.

(** Below a non-empty parent path and with one delimiter all the way, the
    name is the parent path, the delimiter, and the leaf names joined. *)
Lemma uniform_name_below (d : string) (path : list nat) :
  forall (boxes : list (string * Box)) (parentPath : string)
         (entries : list (string * Box)),
    path <> [] ->
    entries_at path boxes = Some entries ->
    Forall (fun entry => box_delimiter (snd entry) = d) entries ->
    truthy parentPath = true ->
    exists f,
      folder_at path (parseBoxes boxes parentPath) = Some f /\
      folder_name f = parentPath +:+ d +:+ join d (fst <$> entries).
Proof.
  induction path as [|i rest IH]; intros boxes parentPath entries Hne Hent Hd Hpp;
    [congruence|].
  cbn [entries_at folder_at] in *. rewrite parseBoxes_lookup.
  destruct (boxes !! i) as [[leaf b]|]; [|discriminate]. cbn [fmap option_fmap option_map fst snd] in *.
  destruct rest as [|j rest].
  - injection Hent as <-. apply Forall_cons in Hd as [Hd _]. cbn in Hd.
    eexists. split; [reflexivity|]. rewrite parseBox_name, Hpp, Hd. reflexivity.
  - rewrite parseBox_children.
    destruct (box_children b) as [sub|]; [|discriminate].
    destruct (entries_at (j :: rest) sub) as [es|] eqn:Hes; [|discriminate].
    cbn in Hent. injection Hent as <-.
    apply Forall_cons in Hd as [Hd Hds]. cbn in Hd.
    cbn [fmap option_fmap option_map].
    destruct (IH sub (folder_name (parseBox parentPath leaf b)) es) as (f & Hf & Hname);
      [discriminate | exact Hes | exact Hds | |].
    + rewrite parseBox_name, Hpp. now apply truthy_append.
    + exists f. split; [exact Hf|]. rewrite Hname, parseBox_name, Hpp, Hd.
      cbn [list_fmap fst].
      rewrite join_cons.
      * now rewrite !append_assoc.
      * assert (Hn : es <> []) by (eapply entries_at_nonempty; [|exact Hes]; discriminate).
        intros Heq. destruct es; [congruence | discriminate Heq].
Qed.

(** X6. On a server with one hierarchy delimiter, a folder's name is its
    path of leaf names joined by that delimiter: if every box on the way
    down to a position has delimiter [d] and the top-level leaf name is not
    empty, the folder there is named [leaf1 d leaf2 d ... leafk]. *)
Theorem X6_uniform_delimiter_joins_leaves
    (boxes : list (string * Box)) (path : list nat)
    (entries : list (string * Box)) (d : string) :
  path <> [] ->
  entries_at path boxes = Some entries ->
  Forall (fun entry => box_delimiter (snd entry) = d) entries ->
  head (fst <$> entries) <> Some "" ->
  exists f,
    folder_at path (parseBoxes boxes "") = Some f /\
    folder_name f = join d (fst <$> entries).
Proof.
  intros Hne Hent Hd Hfirst.
  destruct path as [|i rest]; [congruence|].
  cbn [entries_at folder_at] in *. rewrite parseBoxes_lookup.
  destruct (boxes !! i) as [[leaf b]|]; [|discriminate].
  cbn [fmap option_fmap option_map fst snd] in *.
  destruct rest as [|j rest].
  - injection Hent as <-. eexists. split; [reflexivity|]. now rewrite parseBox_name.
  - rewrite parseBox_children.
    destruct (box_children b) as [sub|]; [|discriminate].
    destruct (entries_at (j :: rest) sub) as [es|] eqn:Hes; [|discriminate].
    cbn in Hent. injection Hent as <-. cbn in Hfirst.
    apply Forall_cons in Hd as [_ Hds].
    assert (Hleaf : truthy leaf = true) by (apply truthy_nonempty; congruence).
    cbn [fmap option_fmap option_map].
    destruct (uniform_name_below d (j :: rest) sub (folder_name (parseBox "" leaf b)) es)
      as (f & Hf & Hname); [discriminate | exact Hes | exact Hds | |].
    + now rewrite parseBox_name.
    + exists f. split; [exact Hf|]. rewrite Hname, parseBox_name. cbn [truthy].
      cbn [list_fmap fst].
      rewrite join_cons; [reflexivity|].
      assert (Hn : es <> []) by (eapply entries_at_nonempty; [|exact Hes]; discriminate).
      intros Heq. destruct es; [congruence | discriminate Heq].
Qed.

Lemma X6_witness :
  let boxes :=
    [("INBOX", mkBox "/" None
        (Some [("Work", mkBox "/" None (Some [("2024", mkBox "/" None None)]))]))] in
  exists f,
    folder_at [0%nat; 0%nat; 0%nat] (parseBoxes boxes "") = Some f /\
    folder_name f = "INBOX/Work/2024".
Proof.
  cbv zeta.
  apply (X6_uniform_delimiter_joins_leaves _ [0%nat; 0%nat; 0%nat]
           [("INBOX", mkBox "/" None
               (Some [("Work", mkBox "/" None (Some [("2024", mkBox "/" None None)]))]));
            ("Work", mkBox "/" None (Some [("2024", mkBox "/" None None)]));
            ("2024", mkBox "/" None None)] "/").
  - discriminate.
  - reflexivity.
  - repeat constructor.
  - discriminate.
Defined.

(** ** Session pool and mailbox operations, continued *)

Section ServiceMore.
Context {Conn Net : Type} `{!NodeImap Conn Net}.

Implicit Types (s : State Conn Net) (imap : Conn).

Lemma calls_of_unchanged {A} (m : M Conn Net A) s :
  snd (m s) = s -> calls_of m s = [].
Proof. intros H. unfold calls_of. rewrite H. apply drop_all. Qed.

Lemma selectFolder_not_registered (accountId folder : string) s :
  activeConnections s !! accountId = None ->
  selectFolder accountId folder s = (inl (no_active_connection accountId), s).
Proof. intros H. unfold selectFolder, bind, getConnection. now rewrite H. Qed.

(** What [connect] does for an account without a session: one connection
    attempt; on ['ready'] the new connection is registered under the
    account id, on ['error'] the map stays as it was. *)
Lemma connect_not_registered (account : ImapAccount) s :
  activeConnections s !! acc_id account = None ->
  exists cfg,
    cfg_user cfg = acc_user account /\ cfg_password cfg = acc_password account /\
    cfg_host cfg = acc_host account /\ cfg_port cfg = acc_port account /\
    cfg_tls cfg = acc_tls account /\
    cfg_authTimeout cfg =
      match acc_authTimeout account with
      | Some t => if (t =? 0)%Z then 3000%Z else t
      | None => 3000%Z
      end /\
    cfg_connTimeout cfg =
      match acc_connTimeout account with
      | Some t => if (t =? 0)%Z then 10000%Z else t
      | None => 10000%Z
      end /\
    cfg_keepalive cfg =
      match acc_keepalive account with Some false => false | _ => true end /\
    connect account s =
    match imap_connect cfg (net s) with
    | (inr imap, net') =>
        (inr tt,
         mkState (<[acc_id account := imap]> (activeConnections s)) net'
                 (trace s ++ [mkEvent (CallConnect (acc_id account) cfg) None]))
    | (inl err, net') =>
        (inl err,
         mkState (activeConnections s) net'
                 (trace s ++ [mkEvent (CallConnect (acc_id account) cfg) (Some err)]))
    end.
Proof.
  intros Hnone. unfold connect.
  rewrite bool_decide_eq_false_2 by (rewrite Hnone; intros [? [=]]).
  eexists (mkImapConfig _ _ _ _ _ _ _ _). cbn.
  repeat (split; [reflexivity|]).
  destruct (imap_connect _ (net s)) as [[err|imap] net']; reflexivity.
Qed.

(** X7. A failed [connect] registers nothing: the connection map is as
    before, the account has no session, the caller gets the library's
    error, exactly one connection attempt was made, and every mutation on
    the account afterwards fails with "No active connection" (so a retry
    starts from scratch). *)
Theorem X7_failed_connect_registers_nothing (account : ImapAccount) s s1 (e : Error) :
  connect account s = (inl e, s1) ->
  activeConnections s1 = activeConnections s /\
  activeConnections s1 !! acc_id account = None /\
  (exists cfg, calls_of (connect account) s
               = [mkEvent (CallConnect (acc_id account) cfg) (Some e)]) /\
  (forall op folder uid,
     mutate op (acc_id account) folder uid s1
     = (inl (no_active_connection (acc_id account)), s1)).
Proof.
  intros Hc.
  assert (Hnone : activeConnections s !! acc_id account = None).
  { destruct (activeConnections s !! acc_id account) eqn:E; [|reflexivity].
    rewrite connect_registered in Hc by (rewrite E; eauto). discriminate. }
  destruct (connect_not_registered account s Hnone) as (cfg & _ & _ & _ & _ & _ & _ & _ & _ & Hrun).
  assert (Hmap : activeConnections s1 = activeConnections s /\
                 trace s1 = trace s ++ [mkEvent (CallConnect (acc_id account) cfg) (Some e)]).
  { rewrite Hrun in Hc. destruct (imap_connect cfg (net s)) as [[err|imap] net'];
      [|discriminate]. injection Hc as <- <-. split; reflexivity. }
  destruct Hmap as [Hmap Htr].
  split; [exact Hmap|]. split; [now rewrite Hmap|]. split.
  - exists cfg. apply calls_of_app. rewrite Hc. exact Htr.
  - intros op folder uid. apply mutate_not_registered. now rewrite Hmap.
Qed.

(** X8. The options [connect] opens a connection with: the credentials and
    endpoint of the account unchanged; a missing or zero timeout replaced
    by the default (3000 ms for authentication, 10000 ms for the
    connection), so that a timeout is never zero, and any other timeout
    kept; keep-alive on unless the account says [false]. *)
Theorem X8_connect_options (account : ImapAccount) s :
  activeConnections s !! acc_id account = None ->
  exists cfg answer,
    calls_of (connect account) s = [mkEvent (CallConnect (acc_id account) cfg) answer] /\
    cfg_user cfg = acc_user account /\ cfg_password cfg = acc_password account /\
    cfg_host cfg = acc_host account /\ cfg_port cfg = acc_port account /\
    cfg_tls cfg = acc_tls account /\
    cfg_authTimeout cfg <> 0%Z /\ cfg_connTimeout cfg <> 0%Z /\
    (forall t, acc_authTimeout account = Some t -> t <> 0%Z -> cfg_authTimeout cfg = t) /\
    (forall t, acc_connTimeout account = Some t -> t <> 0%Z -> cfg_connTimeout cfg = t) /\
    (acc_authTimeout account = None \/ acc_authTimeout account = Some 0%Z ->
     cfg_authTimeout cfg = 3000%Z) /\
    (acc_connTimeout account = None \/ acc_connTimeout account = Some 0%Z ->
     cfg_connTimeout cfg = 10000%Z) /\
    (cfg_keepalive cfg = false <-> acc_keepalive account = Some false).
Proof.
  intros Hnone.
  destruct (connect_not_registered account s Hnone)
    as (cfg & Hu & Hp & Hh & Hpo & Ht & Hat & Hct & Hk & Hrun).
  exists cfg, (match fst (imap_connect cfg (net s)) with inl e => Some e | inr _ => None end).
  split.
  { apply calls_of_app. rewrite Hrun.
    destruct (imap_connect cfg (net s)) as [[err|imap] net']; reflexivity. }
  repeat (split; [assumption|]).
  rewrite Hat, Hct, Hk.
  repeat split.
  - destruct (acc_authTimeout account) as [t|]; [|discriminate].
    destruct (Z.eqb_spec t 0); [discriminate | assumption].
  - destruct (acc_connTimeout account) as [t|]; [|discriminate].
    destruct (Z.eqb_spec t 0); [discriminate | assumption].
  - intros t -> Ht0. destruct (Z.eqb_spec t 0); [contradiction | reflexivity].
  - intros t -> Ht0. destruct (Z.eqb_spec t 0); [contradiction | reflexivity].
  - intros [->| ->]; reflexivity.
  - intros [->| ->]; reflexivity.
  - destruct (acc_keepalive account) as [[|]|]; [discriminate | reflexivity | discriminate].
  - intros ->. reflexivity.
Qed.

(** X9. A successful [connect] for an account without a session registers
    exactly the connection the library delivered, under the account's id,
    and leaves every other account's session as it was. *)
Theorem X9_connect_registers_the_new_connection (account : ImapAccount) s s1 :
  activeConnections s !! acc_id account = None ->
  connect account s = (inr tt, s1) ->
  exists cfg imap,
    fst (imap_connect cfg (net s)) = inr imap /\
    activeConnections s1 !! acc_id account = Some imap /\
    net s1 = snd (imap_connect cfg (net s)) /\
    (forall other, other <> acc_id account ->
       activeConnections s1 !! other = activeConnections s !! other).
Proof.
  intros Hnone Hc.
  destruct (connect_not_registered account s Hnone) as (cfg & _ & _ & _ & _ & _ & _ & _ & _ & Hrun).
  rewrite Hrun in Hc. exists cfg.
  destruct (imap_connect cfg (net s)) as [[err|imap] net']; [discriminate|].
  injection Hc as <-. exists imap. cbn.
  split; [reflexivity|]. split; [apply lookup_insert_eq|]. split; [reflexivity|].
  intros other Hne. now apply lookup_insert_ne.
Qed.

(** X10. [disconnect] always succeeds and leaves the account without a
    session, whatever the state before; other accounts keep theirs.  It
    ends the connection exactly when there was one: without a session it
    changes nothing and makes no call.  Calling it twice is the same as
    calling it once. *)
Theorem X10_disconnect (accountId : string) s :
  let r := disconnect accountId s in
  fst r = inr tt /\
  activeConnections (snd r) !! accountId = None /\
  (forall other, other <> accountId ->
     activeConnections (snd r) !! other = activeConnections s !! other) /\
  (activeConnections s !! accountId = None -> snd r = s) /\
  (is_Some (activeConnections s !! accountId) ->
   calls_of (disconnect accountId) s = [mkEvent (CallEnd accountId) None]) /\
  bind (disconnect accountId) (fun _ => disconnect accountId) s = r.
Proof.
  cbv zeta. unfold bind, calls_of, disconnect.
  destruct (activeConnections s !! accountId) as [imap|] eqn:E; cbn.
  - rewrite lookup_delete_eq. repeat split; auto.
    + intros other Hne. now apply lookup_delete_ne.
    + discriminate.
    + intros _. apply drop_app_length.
  - rewrite E. repeat split; auto. intros [? [=]].
Qed.

Lemma disconnect_unregisters (accountId : string) s :
  activeConnections (snd (disconnect accountId s)) !! accountId = None.
Proof.
  unfold disconnect. destruct (activeConnections s !! accountId) eqn:E; cbn.
  - apply lookup_delete_eq.
  - exact E.
Qed.

(** X11. Connecting and then disconnecting an account that had no session
    leaves the connection map as it was, whether the connection came up or
    not; and a [connect] right after a [disconnect] is always a fresh
    connection attempt, never the no-op of an existing session. *)
Theorem X11_connect_disconnect_round_trip (account : ImapAccount) s :
  (activeConnections s !! acc_id account = None ->
   activeConnections
     (snd (bind (connect account) (fun _ => disconnect (acc_id account)) s))
   = activeConnections s) /\
  length (calls_of (connect account) (snd (disconnect (acc_id account) s))) = 1%nat.
Proof.
  split.
  - intros Hnone.
    destruct (connect_not_registered account s Hnone)
      as (cfg & _ & _ & _ & _ & _ & _ & _ & _ & Hrun).
    unfold bind. rewrite Hrun.
    destruct (imap_connect cfg (net s)) as [[err|imap] net']; [reflexivity|].
    unfold disconnect. cbn. rewrite lookup_insert_eq. cbn.
    now apply delete_insert_id.
  - set (s0 := snd (disconnect (acc_id account) s)).
    destruct (connect_not_registered account s0 (disconnect_unregisters _ s))
      as (cfg & _ & _ & _ & _ & _ & _ & _ & _ & Hrun).
    unfold calls_of. rewrite Hrun.
    destruct (imap_connect cfg (net s0)) as [[err|imap] net']; cbn;
      now rewrite drop_app_length.
Qed.

(** X12. Without a session for the account, selecting a folder, every
    mutation, and every mutation tool called with a uid argument fail with
    the error "No active connection for account <id>", make no library
    call and leave the state untouched. *)
Theorem X12_no_session_fails_cleanly (accountId folder : string) s :
  activeConnections s !! accountId = None ->
  message (no_active_connection accountId)
    = "No active connection for account " +:+ accountId /\
  selectFolder accountId folder s = (inl (no_active_connection accountId), s) /\
  (forall op uid,
     mutate op accountId folder uid s = (inl (no_active_connection accountId), s)) /\
  (forall op uid uids u,
     uidToProcess uid uids = Some u ->
     mutate_tool op accountId folder uid uids s
     = (inl (no_active_connection accountId), s)).
Proof.
  intros Hnone. split; [reflexivity|].
  split; [now apply selectFolder_not_registered|].
  split; [intros; now apply mutate_not_registered|].
  intros op uid uids u Hu.
  pose proof (mutate_not_registered op accountId folder u s Hnone) as Hm.
  destruct (mutate_tool_resolved op accountId folder uid uids u s Hu) as (Hs & He & _).
  rewrite Hm in Hs, He. cbn [fst snd] in Hs, He.
  destruct (mutate_tool op accountId folder uid uids s) as [r s']. cbn [fst snd] in *.
  subst s'. f_equal. now apply He.
Qed.

(** *** Confinement to one account's session *)

Lemma confined_ret {A} (accountId : string) (a : A) :
  confined_to accountId (ret (Conn := Conn) (Net := Net) a).
Proof. intros s. cbn. split; [|split; [|split]]; intros; reflexivity. Qed.

Lemma confined_throw {A} (accountId : string) (e : Error) :
  confined_to accountId (throw (Conn := Conn) (Net := Net) (A := A) e).
Proof. intros s. cbn. split; [|split; [|split]]; intros; reflexivity. Qed.

Lemma confined_bind {A B} (accountId : string) (m : M Conn Net A) (k : A -> M Conn Net B) :
  confined_to accountId m -> (forall a, confined_to accountId (k a)) ->
  confined_to accountId (bind m k).
Proof.
  intros Hm Hk s. specialize (Hm s). unfold bind.
  destruct (m s) as [[e|a] s']; cbn [fst snd] in *; [exact Hm|].
  destruct Hm as (Hnet & Hother & Hsome & Htr).
  destruct (Hk a s') as (Hnet' & Hother' & Hsome' & Htr').
  split; [congruence|]. split.
  - intros other Hne. rewrite Hother' by exact Hne. now apply Hother.
  - split; [now rewrite Hsome'|]. now transitivity (trace s').
Qed.

Lemma confined_getConnection (accountId : string) (k : string -> M Conn Net unit) :
  confined_to accountId (k accountId) ->
  confined_to accountId (bind (getConnection accountId) k).
Proof.
  intros Hk s. unfold bind, getConnection. pose proof (Hk s) as H.
  destruct (activeConnections s !! accountId) as [imap|] eqn:E.
  - exact H.
  - cbn. rewrite ?E. split; [|split; [|split]]; intros; reflexivity.
Qed.

Lemma confined_command (accountId : string) (call : Call)
    (run : Conn -> option Error * Conn) :
  confined_to (Net := Net) accountId (command accountId call run).
Proof.
  intros s. unfold command.
  destruct (activeConnections s !! accountId) as [imap|] eqn:E.
  - destruct (run imap) as [err imap']. cbn. split; [reflexivity|]. split.
    + intros other Hne. now apply lookup_insert_ne.
    + rewrite lookup_insert_eq, ?E. split; [split; eauto|]. now apply prefix_app_r.
  - cbn. rewrite ?E. split; [|split; [|split]]; intros; reflexivity.
Qed.

Lemma confined_selectFolder (accountId folder : string) :
  confined_to (Net := Net) accountId (selectFolder accountId folder).
Proof. apply confined_getConnection, confined_command. Qed.

Lemma confined_mutate (op : Mutation) (accountId folder : string) (uid : UidArg) :
  confined_to (Net := Net) accountId (mutate op accountId folder uid).
Proof.
  destruct op; cbn [mutate]; unfold markAsRead, markAsUnread, deleteEmail, moveEmail.
  all: apply confined_bind; [apply confined_selectFolder|]; intros _.
  all: apply confined_getConnection.
  all: try apply confined_command.
  apply confined_bind; [apply confined_command|]. intros _. apply confined_command.
Qed.

(** X13. Every mutation, and every mutation tool, is confined to the
    session of the account it is called for: it never changes another
    account's connection or the network, never registers or drops the
    account's own session, and only ever adds to the record of library
    calls. *)
Theorem X13_mutations_are_confined (op : Mutation) (accountId folder : string) :
  confined_to (Net := Net) accountId (selectFolder accountId folder) /\
  (forall uid, confined_to (Net := Net) accountId (mutate op accountId folder uid)) /\
  (forall uid uids, confined_to (Net := Net) accountId (mutate_tool op accountId folder uid uids)).
Proof.
  split; [apply confined_selectFolder|]. split; [intros; apply confined_mutate|].
  intros uid uids.
  destruct op; cbn [mutate_tool];
    unfold imap_mark_as_read, imap_mark_as_unread, imap_delete_email, imap_move_email;
    cbn [default]; destruct (uidToProcess uid uids) as [u|];
    try apply confined_throw.
  - apply confined_bind; [apply (confined_mutate MarkRead)|]. intros; apply confined_ret.
  - apply confined_bind; [apply (confined_mutate MarkUnread)|]. intros; apply confined_ret.
  - apply confined_bind; [apply (confined_mutate Delete)|]. intros; apply confined_ret.
  - apply confined_bind; [apply (confined_mutate (Move destinationFolder))|].
    intros; apply confined_ret.
Qed.

(** X14. How many library calls a mutation makes, and which it never
    makes: at most three for delete and at most two for the others; an
    expunge is issued by delete only; only markUnread ever issues a
    flag-removing command. *)
Theorem X14_call_budget (op : Mutation) (accountId folder : string) (uid : UidArg) s :
  let evs := calls_of (mutate op accountId folder uid) s in
  (length evs <= 3)%nat /\
  (op <> Delete ->
   (length evs <= 2)%nat /\ Forall (fun ev => is_expunge (ev_call ev) = false) evs) /\
  (op <> MarkUnread -> Forall (fun ev => is_delFlags (ev_call ev) = false) evs).
Proof.
  cbv zeta.
  destruct (activeConnections s !! accountId) as [imap|] eqn:Hreg.
  - pose proof (mutate_run op accountId folder uid s imap Hreg) as Hrun.
    cbv zeta in Hrun.
    destruct Hrun
      as [(e & _ & _ & Htr) | (_ & [(Hne & _ & Htr) | (-> & _ & _ & Htr)])];
      rewrite (calls_of_app _ _ _ Htr); cbn [length].
    + split; [lia|]. split; intros _; [split; [lia|]|]; repeat constructor.
    + split; [lia|]. split.
      * intros _. split; [lia|]. destruct op; repeat constructor.
      * intros Hop. destruct op; try congruence; repeat constructor.
    + split; [lia|]. split; [congruence|]. intros _. repeat constructor.
  - rewrite calls_of_unchanged
      by (now rewrite (mutate_not_registered op accountId folder uid s Hreg)).
    cbn. split; [lia|]. split; intros _; [split; [lia|]|]; constructor.
Qed.

(** X15. A mutation tool reports what the service did: called with a uid
    argument (a scalar or a sequence) it ends in the service's state; it
    fails exactly when the service fails, with the same error; and when
    the service succeeds it answers [success: true], with a message that
    for a sequence names the number of uids requested. *)
Theorem X15_tool_reports_service_outcome (op : Mutation) (accountId folder : string)
    (uid : option Z) (uids : option (list Z)) (u : UidArg) s :
  uidToProcess uid uids = Some u ->
  let tool := mutate_tool op accountId folder uid uids s in
  let service := mutate op accountId folder u s in
  (uids = None -> exists n, uid = Some n /\ u = Uid n) /\
  snd tool = snd service /\
  (forall e, fst tool = inl e <-> fst service = inl e) /\
  (fst service = inr tt ->
   exists msg,
     fst tool = inr (mkToolResult true msg) /\
     forall l, u = Uids l ->
       exists what, msg = pretty (length l) +:+ " emails " +:+ what).
Proof.
  intros Hu. cbv zeta.
  destruct (mutate_tool_resolved op accountId folder uid uids u s Hu) as (Hs & He & _).
  split.
  { intros ->. destruct uid as [n|]; [|discriminate]. injection Hu as <-. eauto. }
  split; [exact Hs|]. split; [exact He|].
  intros Hok. destruct (mutate_tool_success op accountId folder uid uids u s Hu Hok)
    as [what Hw].
  eexists. split; [exact Hw|]. intros l ->. exists what. reflexivity.
Qed.

End ServiceMore.

(** ** The operations on the reference server, continued *)

Lemma X7_witness :
  let s1 := snd (connect account_unreachable Mock.disconnected) in
  activeConnections s1 = activeConnections Mock.disconnected /\
  mutate MarkRead "B" "INBOX" (Uid 1) s1 = (inl (no_active_connection "B"), s1).
Proof.
  cbv zeta.
  destruct (X7_failed_connect_registers_nothing account_unreachable Mock.disconnected
              (snd (connect account_unreachable Mock.disconnected))
              (mkError "getaddrinfo ENOTFOUND")) as (Hmap & _ & _ & Hmut);
    [reflexivity|].
  split; [exact Hmap | apply Hmut].
Defined.

Lemma X8_witness :
  exists cfg answer,
    calls_of (connect account_unreachable) Mock.disconnected
      = [mkEvent (CallConnect "B" cfg) answer] /\
    cfg_authTimeout cfg = 3000%Z /\ cfg_connTimeout cfg = 10000%Z /\
    cfg_keepalive cfg = false.
Proof.
  destruct (X8_connect_options account_unreachable Mock.disconnected)
    as (cfg & answer & Hcalls & _ & _ & _ & _ & _ & _ & _ & _ & _ & Hauth & Hconn & Hkeep);
    [reflexivity|].
  exists cfg, answer. split; [exact Hcalls|].
  split; [apply Hauth; right; reflexivity|].
  split; [apply Hconn; left; reflexivity|].
  apply Hkeep. reflexivity.
Defined.

Lemma X9_witness :
  exists cfg imap,
    fst (imap_connect cfg (net Mock.disconnected)) = inr imap /\
    activeConnections (snd (connect Mock.account_A Mock.disconnected)) !! "A" = Some imap.
Proof.
  destruct (X9_connect_registers_the_new_connection Mock.account_A Mock.disconnected
              (snd (connect Mock.account_A Mock.disconnected)))
    as (cfg & imap & Hlib & Hreg & _); [reflexivity | reflexivity |].
  exists cfg, imap. split; [exact Hlib | exact Hreg].
Defined.

Lemma X10_witness :
  calls_of (disconnect "A") Mock.ready = [mkEvent (CallEnd "A") None].
Proof.
  pose proof (X10_disconnect "A" Mock.ready) as H. cbv zeta in H.
  destruct H as (_ & _ & _ & _ & H & _). apply H. eexists. reflexivity.
Defined.

Lemma X11_witness :
  activeConnections
    (snd (bind (connect Mock.account_A) (fun _ => disconnect "A") Mock.disconnected))
  = activeConnections Mock.disconnected.
Proof.
  apply (proj1 (X11_connect_disconnect_round_trip Mock.account_A Mock.disconnected)).
  reflexivity.
Defined.

Lemma X12_witness :
  mutate_tool Delete "A" "INBOX" None (Some [1; 2]%Z) Mock.disconnected
  = (inl (no_active_connection "A"), Mock.disconnected).
Proof.
  destruct (X12_no_session_fails_cleanly "A" "INBOX" Mock.disconnected) as (_ & _ & _ & H);
    [reflexivity|].
  apply (H Delete None (Some [1; 2]%Z) (Uids [1; 2]%Z)). reflexivity.
Defined.

Lemma X14_witness :
  Forall (fun ev => is_expunge (ev_call ev) = false)
         (calls_of (mutate (Move "Archive") "A" "INBOX" (Uids [1; 2]%Z)) Mock.ready).
Proof.
  pose proof (X14_call_budget (Move "Archive") "A" "INBOX" (Uids [1; 2]%Z) Mock.ready) as H.
  cbv zeta in H. destruct H as (_ & H & _). apply H. discriminate.
Defined.

Lemma X15_witness :
  exists what,
    fst (mutate_tool MarkRead "A" "INBOX" None (Some [1; 2]%Z) Mock.ready)
    = inr (mkToolResult true ("2 emails " +:+ what)).
Proof.
  pose proof (X15_tool_reports_service_outcome MarkRead "A" "INBOX" None (Some [1; 2]%Z)
                (Uids [1; 2]%Z) Mock.ready eq_refl) as H.
  cbv zeta in H. destruct H as (_ & _ & _ & H).
  destruct H as (msg & Hmsg & Hseq); [reflexivity|].
  destruct (Hseq [1; 2]%Z eq_refl) as [what ->].
  exists what. exact Hmsg.
Defined.

(** ** Search, latest-emails and get-email handlers *)

(** X16. The search tool's answer: [totalFound] counts everything the
    search found and [returned] what is handed back; the messages handed
    back are the first [returned] of those found, in the same order.  For
    a non-negative limit that is [min(limit, totalFound)] messages; a
    negative limit counts from the end and drops the last [-limit]
    messages instead. *)
Theorem X16_search_limit (found : list EmailMessage) (limit : Z) :
  let r := search_tool_response found limit in
  totalFound r = length found /\
  returned r = length (messages r) /\
  messages r = take (returned r) found /\
  (returned r <= totalFound r)%nat /\
  ((0 <= limit)%Z -> returned r = Nat.min (Z.to_nat limit) (length found)) /\
  ((limit < 0)%Z -> returned r = (length found - Z.to_nat (- limit))%nat).
Proof.
  cbv zeta. unfold search_tool_response, slice0. cbn [totalFound returned messages].
  set (n := Z.to_nat _).
  split; [reflexivity|]. split; [reflexivity|].
  assert (Hn : (n <= length found)%nat).
  { subst n. destruct (Z.ltb_spec limit 0); lia. }
  rewrite length_take_le by exact Hn.
  split; [reflexivity|]. split; [exact Hn|].
  split; intros Hl; subst n; destruct (Z.ltb_spec limit 0); lia.
Qed.

Lemma X16_witness :
  let m := mkEmailMessage 1 (DateMs 0) "a" [] "s" "<1>" None [] in
  returned (search_tool_response [m; m; m] 2) = 2%nat /\
  returned (search_tool_response [m; m; m] (-1)) = 2%nat.
Proof.
  cbv zeta.
  pose proof (X16_search_limit
    [mkEmailMessage 1 (DateMs 0) "a" [] "s" "<1>" None [];
     mkEmailMessage 1 (DateMs 0) "a" [] "s" "<1>" None [];
     mkEmailMessage 1 (DateMs 0) "a" [] "s" "<1>" None []] 2) as H2.
  pose proof (X16_search_limit
    [mkEmailMessage 1 (DateMs 0) "a" [] "s" "<1>" None [];
     mkEmailMessage 1 (DateMs 0) "a" [] "s" "<1>" None [];
     mkEmailMessage 1 (DateMs 0) "a" [] "s" "<1>" None []] (-1)) as H1.
  cbv zeta in H1, H2.
  destruct H2 as (_ & _ & _ & _ & H2 & _). destruct H1 as (_ & _ & _ & _ & _ & H1).
  split; [rewrite H2 by lia; reflexivity | rewrite H1 by lia; reflexivity].
Defined.

(** *** Sorting by date *)

Lemma sort_insert_perm {A} (cmp : A -> A -> option Z) (x : A) (l : list A) :
  sort_insert cmp x l ≡ₚ x :: l.
Proof.
  induction l as [|y l IH]; [reflexivity|]. cbn.
  destruct (behind (cmp x y)); [|reflexivity].
  rewrite IH. apply Permutation_swap.
Qed.

Lemma js_sort_perm {A} (cmp : A -> A -> option Z) (l : list A) : js_sort cmp l ≡ₚ l.
Proof.
  induction l as [|x l IH]; [reflexivity|]. cbn.
  rewrite sort_insert_perm. now rewrite IH.
Qed.

Lemma not_older_trans (a b c : EmailMessage) :
  not_older a b -> not_older b c -> not_older a c.
Proof.
  unfold not_older.
  destruct (getTime (msg_date a)), (getTime (msg_date b)), (getTime (msg_date c));
    try tauto. lia.
Qed.

Lemma sort_insert_sorted (x : EmailMessage) (l : list EmailMessage) :
  valid_date x -> Forall valid_date l ->
  StronglySorted not_older l -> StronglySorted not_older (sort_insert newest_first x l).
Proof.
  intros [tx Hx] Hv Hs. induction Hs as [|y l Hs IH Hy]; cbn.
  - repeat constructor.
  - apply Forall_cons in Hv as [[ty Hty] Hv].
    unfold newest_first. rewrite Hx, Hty. cbn [behind].
    destruct (Z.ltb_spec 0 (ty - tx)).
    + constructor; [now apply IH|].
      rewrite sort_insert_perm. constructor; [|exact Hy].
      unfold not_older. rewrite Hty, Hx. lia.
    + assert (Hxy : not_older x y) by (unfold not_older; rewrite Hx, Hty; lia).
      constructor; [now constructor|].
      constructor; [exact Hxy|].
      eapply Forall_impl; [exact Hy|]. intros z Hz. now apply (not_older_trans x y z).
Qed.

Lemma js_sort_sorted (l : list EmailMessage) :
  Forall valid_date l -> StronglySorted not_older (js_sort newest_first l).
Proof.
  induction l as [|x l IH]; intros Hv; [constructor|]. cbn.
  apply Forall_cons in Hv as [Hx Hv].
  apply sort_insert_sorted; [exact Hx | | now apply IH].
  now rewrite js_sort_perm.
Qed.

(** X17. The latest-emails tool returns the [count] most recent messages,
    newest first: when every message found has a valid date and [count] is
    not negative, the answer has [min(count, found)] messages, each at
    least as recent as all that follow it, and together with the messages
    left out it makes up exactly what was found, none of those left out
    being more recent than any returned. *)
Theorem X17_latest_emails_are_the_newest (found : list EmailMessage) (count : Z) :
  Forall valid_date found ->
  (0 <= count)%Z ->
  let r := latest_emails found count in
  length r = Nat.min (Z.to_nat count) (length found) /\
  StronglySorted not_older r /\
  exists rest,
    found ≡ₚ r ++ rest /\
    forall a b, a ∈ r -> b ∈ rest -> not_older a b.
Proof.
  intros Hv Hc. cbv zeta. unfold latest_emails, slice0.
  destruct (Z.ltb_spec count 0); [lia|].
  set (sorted := js_sort newest_first found).
  set (n := Z.to_nat _).
  assert (Hlen : length sorted = length found)
    by (subst sorted; now rewrite js_sort_perm).
  assert (Hs : StronglySorted not_older (take n sorted ++ drop n sorted))
    by (rewrite take_drop; now apply js_sort_sorted).
  apply StronglySorted_app in Hs as (Hcross & Hs1 & _).
  split; [rewrite length_take; subst n; lia|].
  split; [exact Hs1|].
  exists (drop n sorted). split; [|exact Hcross].
  rewrite take_drop. subst sorted. now rewrite js_sort_perm.
Qed.

Lemma X17_witness :
  let old := mkEmailMessage 1 (DateMs 100) "a" [] "old" "<1>" None [] in
  let new := mkEmailMessage 2 (DateMs 300) "b" [] "new" "<2>" None [] in
  let mid := mkEmailMessage 3 (DateMs 200) "c" [] "mid" "<3>" None [] in
  latest_emails [old; new; mid] 2 = [new; mid] /\
  StronglySorted not_older (latest_emails [old; new; mid] 2).
Proof.
  cbv zeta. split; [reflexivity|].
  apply (X17_latest_emails_are_the_newest
           [mkEmailMessage 1 (DateMs 100) "a" [] "old" "<1>" None [];
            mkEmailMessage 2 (DateMs 300) "b" [] "new" "<2>" None [];
            mkEmailMessage 3 (DateMs 200) "c" [] "mid" "<3>" None []] 2).
  - repeat constructor; eexists; reflexivity.
  - lia.
Defined.

Lemma sort_insert_dated (t : Z) (x : EmailMessage) (l : list EmailMessage) :
  valid_date x -> Forall valid_date l ->
  dated t (sort_insert newest_first x l) = dated t (x :: l).
Proof.
  intros [tx Hx] Hv. induction l as [|y l IH]; [reflexivity|].
  apply Forall_cons in Hv as [[ty Hty] Hv]. specialize (IH Hv).
  assert (Hb : behind (newest_first x y) = (0 <? ty - tx)%Z)
    by (unfold newest_first; rewrite Hx, Hty; reflexivity).
  cbn [sort_insert]. rewrite Hb.
  destruct (Z.ltb_spec 0 (ty - tx)); [|reflexivity].
  unfold dated in *. cbn [List.filter] in *. rewrite IH, Hx, Hty.
  destruct (bool_decide_reflect (Some tx = Some t)) as [[= ->]|];
    destruct (bool_decide_reflect (Some ty = Some t)) as [[= ->]|]; try reflexivity.
  lia.
Qed.

(** X18. The ordering of the latest-emails tool is stable: messages that
    carry the same date come out in the order in which the search
    delivered them (all dates being valid). *)
Theorem X18_latest_order_is_stable (found : list EmailMessage) (t : Z) :
  Forall valid_date found ->
  dated t (js_sort newest_first found) = dated t found.
Proof.
  induction found as [|x l IH]; intros Hv; [reflexivity|].
  apply Forall_cons in Hv as [Hx Hv]. cbn [js_sort].
  rewrite sort_insert_dated; [|exact Hx | now rewrite js_sort_perm].
  unfold dated in *. cbn [List.filter]. now rewrite IH.
Qed.

Lemma X18_witness :
  let first := mkEmailMessage 1 (DateMs 100) "a" [] "first" "<1>" None [] in
  let newer := mkEmailMessage 2 (DateMs 300) "b" [] "newer" "<2>" None [] in
  let second := mkEmailMessage 3 (DateMs 100) "c" [] "second" "<3>" None [] in
  dated 100 (js_sort newest_first [first; newer; second]) = [first; second].
Proof.
  cbv zeta.
  rewrite (X18_latest_order_is_stable
             [mkEmailMessage 1 (DateMs 100) "a" [] "first" "<1>" None [];
              mkEmailMessage 2 (DateMs 300) "b" [] "newer" "<2>" None [];
              mkEmailMessage 3 (DateMs 100) "c" [] "second" "<3>" None []] 100).
  - reflexivity.
  - repeat constructor; eexists; reflexivity.
Defined.

(** *** Shortening the bodies *)

Lemma continuation_byte (k : N) :
  (k < 64)%N -> is_continuation (ascii_of_N (128 + k)) = true.
Proof.
  intros Hk. unfold is_continuation.
  rewrite N_ascii_embedding by lia.
  apply andb_true_iff. split; [apply N.leb_le | apply N.ltb_lt]; lia.
Qed.

Lemma high_surrogate_length (b0 b1 b2 b3 : ascii) :
  utf16_length (high_surrogate b0 b1 b2 b3) = 1%nat.
Proof.
  unfold high_surrogate. cbv zeta. cbn [utf16_length].
  rewrite !continuation_byte by (apply N.mod_lt; discriminate).
  reflexivity.
Qed.

Lemma js_substring0_length (s : string) :
  forall n, utf16_length (js_substring0 n s) = Nat.min n (utf16_length s).
Proof.
  induction s as [|b rest IH]; intros n; cbn [js_substring0 utf16_length].
  - now rewrite Nat.min_0_r.
  - destruct (is_continuation b) eqn:Hc.
    + cbn [utf16_length]. rewrite Hc, IH. reflexivity.
    + destruct n as [|n1]; [reflexivity|].
      destruct (starts_pair b) eqn:Hp.
      * destruct n1 as [|n2].
        -- rewrite high_surrogate_length. reflexivity.
        -- cbn [utf16_length]. rewrite Hc, Hp, IH. reflexivity.
      * cbn [utf16_length]. rewrite Hc, Hp, IH. reflexivity.
Qed.

Lemma js_substring0_short (s : string) :
  forall n, (utf16_length s <= n)%nat -> js_substring0 n s = s.
Proof.
  induction s as [|b rest IH]; intros n Hlen; cbn [js_substring0 utf16_length] in *;
    [reflexivity|].
  destruct (is_continuation b).
  - now rewrite IH.
  - destruct (starts_pair b).
    + destruct n as [|[|n2]]; [lia | lia |]. rewrite IH by lia. reflexivity.
    + destruct n as [|n1]; [lia|]. rewrite IH by lia. reflexivity.
Qed.

Lemma is_cut_of_cons (b : ascii) (body shown : string) :
  is_cut_of body shown -> is_cut_of (String b body) (String b shown).
Proof.
  intros (front & rest & -> & Hshown). exists (String b front), rest.
  split; [reflexivity|]. destruct Hshown as [->|(c & tail & -> & Hc & ->)];
    [left; reflexivity|].
  right. exists c, tail. repeat split; assumption.
Qed.

Lemma js_substring0_cut (s : string) : forall n, is_cut_of s (js_substring0 n s).
Proof.
  induction s as [|b rest IH]; intros n; cbn [js_substring0].
  - exists "", "". split; [reflexivity | left; reflexivity].
  - destruct (is_continuation b); [apply is_cut_of_cons, IH|].
    destruct n as [|n1].
    + exists "", (String b rest). split; [reflexivity | left; reflexivity].
    + destruct (starts_pair b) eqn:Hp; [|apply is_cut_of_cons, IH].
      destruct n1 as [|n2]; [|apply is_cut_of_cons, IH].
      exists "", (String b rest). split; [reflexivity|].
      right. exists b, rest. repeat split. exact Hp.
Qed.

(** X19. The get-email tool shortens a body without rewriting it,
    counting as JavaScript does (UTF-16 code units): the text (and
    likewise the HTML) it returns has [min(length, 10000)] code units and
    is a beginning of the original (ending in the first half of a
    surrogate pair when the cut falls inside one), hence the original
    itself when that has at most 10000 code units; a missing body stays
    missing, and uid, sender, recipients, subject and message id are
    passed on unchanged. *)
Theorem X19_get_email_shortens_bodies (email : EmailContent) :
  let view := get_email_view email in
  Z.of_nat content_limit = 10000%Z /\
  (forall body,
     em_textContent email = Some body ->
     exists shown,
       em_textContent view = Some shown /\
       is_cut_of body shown /\
       utf16_length shown = Nat.min content_limit (utf16_length body) /\
       ((utf16_length body <= content_limit)%nat -> shown = body)) /\
  (forall body,
     em_htmlContent email = Some body ->
     exists shown,
       em_htmlContent view = Some shown /\
       is_cut_of body shown /\
       utf16_length shown = Nat.min content_limit (utf16_length body) /\
       ((utf16_length body <= content_limit)%nat -> shown = body)) /\
  (em_textContent email = None -> em_textContent view = None) /\
  (em_htmlContent email = None -> em_htmlContent view = None) /\
  em_from view = em_from email /\ em_to view = em_to email /\
  em_subject view = em_subject email /\ em_messageId view = em_messageId email /\
  em_uid view = em_uid email.
Proof.
  cbv zeta. split; [reflexivity|].
  unfold get_email_view. cbn [em_textContent em_htmlContent em_from em_to em_subject
                             em_messageId em_uid].
  split; [|split].
  - intros body ->. eexists. split; [reflexivity|].
    split; [apply js_substring0_cut|]. split; [apply js_substring0_length|].
    apply js_substring0_short.
  - intros body ->. eexists. split; [reflexivity|].
    split; [apply js_substring0_cut|]. split; [apply js_substring0_length|].
    apply js_substring0_short.
  - repeat split; try reflexivity; intros ->; reflexivity.
Qed.

Lemma X19_witness :
  let email :=
    mkEmailContent 7 (DateMs 0) "ann@example.org" ["me@example.org"]
      "Lunch" "<m1@example.org>" None (Some "5 € only") None in
  utf16_length "5 € only" = 8%nat /\
  em_textContent (get_email_view email) = Some "5 € only" /\
  em_htmlContent (get_email_view email) = None.
Proof.
  cbv zeta. split; [reflexivity|].
  pose proof (X19_get_email_shortens_bodies
    (mkEmailContent 7 (DateMs 0) "ann@example.org" ["me@example.org"]
       "Lunch" "<m1@example.org>" None (Some "5 € only") None)) as H.
  cbv zeta in H. destruct H as (_ & Htext & _ & _ & Hhtml & _).
  split; [|apply Hhtml; reflexivity].
  destruct (Htext "5 € only" eq_refl) as (shown & Hshown & _ & _ & Hsame).
  rewrite Hshown. f_equal. apply Hsame. unfold content_limit. cbn [utf16_length].
  vm_compute. lia.
Defined.

(** ** Outbound composer, continued *)

Lemma not_startsWith_other (a b : ascii) (p q rest : string) :
  a <> b -> startsWith (String a p +:+ rest) (String b q) = false.
Proof.
  intros Hab. unfold startsWith. rewrite append_cons. cbn [String.prefix].
  destruct (ascii_dec b a); [congruence | reflexivity].
Qed.

(** X20. What a composed subject looks like: a reply subject always starts
    with ["Re: "] and a forward subject with ["Fwd: "]; each is the
    original or the original with the prefix put in front; and the two
    prefixes do not recognise each other, so forwarding a reply puts
    ["Fwd: "] in front of ["Re: ..."] and replying to a forward puts
    ["Re: "] in front of ["Fwd: ..."]. *)
Theorem X20_subject_prefixes (subject : string) :
  startsWith (reply_subject subject) "Re: " = true /\
  startsWith (forward_subject subject) "Fwd: " = true /\
  (reply_subject subject = subject \/ reply_subject subject = "Re: " +:+ subject) /\
  (forward_subject subject = subject \/ forward_subject subject = "Fwd: " +:+ subject) /\
  forward_subject (reply_subject subject) = "Fwd: " +:+ reply_subject subject /\
  reply_subject (forward_subject subject) = "Re: " +:+ forward_subject subject.
Proof.
  assert (Hre : startsWith (reply_subject subject) "Re: " = true).
  { unfold reply_subject. destruct (startsWith subject "Re: ") eqn:E; [exact E|].
    apply startsWith_spec. eauto. }
  assert (Hfwd : startsWith (forward_subject subject) "Fwd: " = true).
  { unfold forward_subject. destruct (startsWith subject "Fwd: ") eqn:E; [exact E|].
    apply startsWith_spec. eauto. }
  split; [exact Hre|]. split; [exact Hfwd|].
  split; [unfold reply_subject; destruct (startsWith subject "Re: "); auto|].
  split; [unfold forward_subject; destruct (startsWith subject "Fwd: "); auto|].
  split.
  - apply startsWith_spec in Hre as [rest Hrest].
    unfold forward_subject at 1. rewrite Hrest at 1.
    rewrite not_startsWith_other by discriminate. reflexivity.
  - apply startsWith_spec in Hfwd as [rest Hrest].
    unfold reply_subject at 1. rewrite Hrest at 1.
    rewrite not_startsWith_other by discriminate. reflexivity.
Qed.

(** X21. Attachments of a reply keep their number, their order and their
    names; the content of an attachment is decoded from base64 exactly
    when it is present and not the empty string, and is left out
    otherwise; without an [attachments] argument the reply has none. *)
Theorem X21_reply_attachments {Buffer : Type} (decode : string -> Buffer)
    (account : ImapAccount) (original : EmailContent)
    (text html : option string) (replyAll : bool)
    (attachments : option (list AttachmentInput)) :
  let sent := ec_attachments (replyComposer decode account original text html replyAll
                                            attachments) in
  (attachments = None <-> sent = None) /\
  (forall given, attachments = Some given ->
     exists out,
       sent = Some out /\ length out = length given /\
       forall i att,
         given !! i = Some att ->
         exists o,
           out !! i = Some o /\
           out_filename o = att_filename att /\
           out_path o = att_path att /\
           out_contentType o = att_contentType att /\
           (forall c, att_content att = Some c -> c <> "" -> out_content o = Some (decode c)) /\
           (att_content att = None \/ att_content att = Some "" -> out_content o = None)).
Proof.
  cbv zeta. cbn [ec_attachments replyComposer].
  split; [destruct attachments; cbn; split; intros; congruence|].
  intros given ->. eexists. split; [reflexivity|]. split; [apply length_map|].
  intros i att Hi. exists (map_attachment decode att).
  split; [rewrite lookup_map, Hi; reflexivity|].
  unfold map_attachment. cbn.
  repeat split.
  - intros c -> Hc. destruct c; [congruence | reflexivity].
  - intros [-> | ->]; reflexivity.
Qed.

Lemma X21_witness :
  let given := [mkAttachmentInput "a.txt" (Some "aGk=") None None;
                mkAttachmentInput "b.txt" (Some "") (Some "/tmp/b.txt") None] in
  let original :=
    mkEmailContent 7 (DateMs 0) "ann@example.org" ["me@example.org"]
      "Lunch" "<m1@example.org>" None (Some "hello") None in
  exists out,
    ec_attachments (replyComposer (fun s : string => s) Mock.account_A original
                      (Some "ok") None false (Some given)) = Some out /\
    length out = 2%nat.
Proof.
  cbv zeta.
  pose proof (X21_reply_attachments (fun s : string => s) Mock.account_A
    (mkEmailContent 7 (DateMs 0) "ann@example.org" ["me@example.org"]
       "Lunch" "<m1@example.org>" None (Some "hello") None)
    (Some "ok") None false
    (Some [mkAttachmentInput "a.txt" (Some "aGk=") None None;
           mkAttachmentInput "b.txt" (Some "") (Some "/tmp/b.txt") None])) as H.
  cbv zeta in H. destruct H as [_ H].
  destruct (H _ eq_refl) as (out & Hout & Hlen & _).
  exists out. split; [exact Hout | exact Hlen].
Defined.
